(** * Grid composer of the TTS custom deck builder (src/src/App/App.tsx)

    A shallow embedding of the React component [App]: its session state
    (image list, grid shape, cell width), the event handlers that update it,
    and the canvas renderer [drawCanvas].

    Conventions of the embedding.
    - A JavaScript [number] that the program keeps in its state is always an
      integer (it comes from [parseInt], [Array.length], an index or
      [Math.round]); such numbers are values of [Z].  Inside the safe-integer
      range the double-precision operations the program applies to them
      (addition, subtraction, multiplication, [Math.floor] of a quotient, [%])
      are exact, so they are written with the corresponding operations of [Z].
      Outside that range the code rounds to binary64 (and a numeral of more
      than 308 digits parses to [Infinity]); every statement below that
      depends on the value read from, or shown in, an input field is
      therefore restricted to safe integers ([isSafeInteger]).
      [-0] is identified with [0] (both are falsy, both compare equal).
    - The result of [parseInt], which may be [NaN], has type [number].
    - The one genuinely fractional computation, [customWidth * MTG_RATIO], is
      carried out in IEEE-754 binary64 with the executable model of the
      standard library ([SpecFloat], precision 53, [emax] 1024).
    - The canvas is a record holding its attributes, the 2d context state and
      the bitmap.  The bitmap is kept as the list of painted layers in device
      space, most recent first.  Images are composited source-over: what a
      device pixel shows is the stack of the image samples that cover it,
      the most recent on top, down to the line or cleared pixel beneath
      them.  Whether an image sample is opaque is a matter of the decoded
      image; it enters the statements through an explicit [Compositing]
      model. *)

From Stdlib Require Import ZArith QArith Qround Lia Ascii String.
From Stdlib Require Import Floats.SpecFloat.
From stdpp Require Import base list strings pretty.

Local Open Scope Z_scope.

(** ** JavaScript numbers *)

(** The value of an expression that may be [NaN]. *)
Inductive number : Type :=
| NaN : number
| Num : Z -> number.

(** [Number.MAX_SAFE_INTEGER] and [Number.isSafeInteger], on integers. *)
Definition MAX_SAFE_INTEGER : Z := 2 ^ 53 - 1.

Definition isSafeInteger (n : Z) : bool :=
  (- MAX_SAFE_INTEGER <=? n) && (n <=? MAX_SAFE_INTEGER).

(** [a - b] with a possibly-[NaN] left operand; the difference of safe
    integers that the code computes without rounding. *)
Definition js_sub (a : number) (b : Z) : number :=
  match a with
  | NaN => NaN
  | Num z => Num (z - b)
  end.

(** [a || d]: [NaN] and [0] are the falsy numbers. *)
Definition js_or (a : number) (d : Z) : Z :=
  match a with
  | NaN => d
  | Num z => if z =? 0 then d else z
  end.

(** *** [parseInt(string)] with the radix left undefined

    ECMAScript's algorithm: strip leading white space, read an optional sign,
    recognise the prefix [0x]/[0X] (radix 16, otherwise radix 10), take the
    longest prefix of digits of that radix; no digit gives [NaN].  The
    field values are ASCII, so white space is the ASCII white space.
    The result is the mathematical integer the digits denote; the code's
    Number is that integer when it is a safe integer, and its rounding to
    binary64 otherwise. *)

Definition code (c : ascii) : Z := Z.of_N (N_of_ascii c).

Definition isWhiteSpace (c : ascii) : bool :=
  let n := code c in
  ((9 <=? n) && (n <=? 13)) || (n =? 32).

Fixpoint trimStart (s : string) : string :=
  match s with
  | String c r => if isWhiteSpace c then trimStart r else s
  | EmptyString => EmptyString
  end.

(** Value of a character as a digit, letters counting from ten. *)
Definition digitValue (c : ascii) : option Z :=
  let n := code c in
  if (48 <=? n) && (n <=? 57) then Some (n - 48)
  else if (97 <=? n) && (n <=? 122) then Some (n - 87)
  else if (65 <=? n) && (n <=? 90) then Some (n - 55)
  else None.

(** Longest prefix of radix-[R] digits; [acc] is the value read so far,
    [None] as long as no digit has been read. *)
Fixpoint parseDigits (R : Z) (s : string) (acc : option Z) : option Z :=
  match s with
  | EmptyString => acc
  | String c r =>
      match digitValue c with
      | Some d =>
          if d <? R
          then parseDigits R r (Some (R * default 0 acc + d))
          else acc
      | None => acc
      end
  end.

Definition stripSign (s : string) : Z * string :=
  match s with
  | String c r =>
      if code c =? 45 then (-1, r)
      else if code c =? 43 then (1, r)
      else (1, s)
  | EmptyString => (1, s)
  end.

Definition stripPrefix (s : string) : Z * string :=
  match s with
  | String c0 (String c1 r) =>
      if (code c0 =? 48) && ((code c1 =? 120) || (code c1 =? 88))
      then (16, r)
      else (10, s)
  | _ => (10, s)
  end.

Definition parseInt (s : string) : number :=
  let '(sign, s1) := stripSign (trimStart s) in
  let '(R, s2) := stripPrefix s1 in
  match parseDigits R s2 None with
  | None => NaN
  | Some n => Num (sign * n)
  end.

(** *** Binary64 arithmetic, for [customWidth * MTG_RATIO] *)

Definition prec : Z := 53.
Definition emax : Z := 1024.

(** The double nearest to an integer (exact up to [2^53]). *)
Definition double_of_Z (z : Z) : spec_float :=
  binary_normalize prec emax z 0 false.

(** The integer denoted by an integral finite double, truncating any
    fraction; [NaN] and the infinities, which the height computation meets
    only for widths beyond the range of doubles, are sent to [0]. *)
Definition Z_of_double (x : spec_float) : Z :=
  match x with
  | S754_finite s m e =>
      cond_Zopp s (if 0 <=? e then Zpos m * 2 ^ e else Zpos m / 2 ^ (- e))
  | _ => 0
  end.

(** [Math.round]: the nearest integer, a tie going towards [+Infinity];
    the sign of a zero result is the sign of the argument. *)
Definition Math_round (x : spec_float) : spec_float :=
  match x with
  | S754_finite s m e =>
      if 0 <=? e then x
      else
        let n := cond_Zopp s (Zpos m) in
        let r := (2 * n + 2 ^ (- e)) / 2 ^ (1 - e) in
        if r =? 0 then S754_zero s else double_of_Z r
  | _ => x
  end.

(** [Math.floor]: the greatest integer not above the argument. *)
Definition Math_floor (x : spec_float) : spec_float :=
  match x with
  | S754_finite s m e =>
      if 0 <=? e then x
      else
        let r := cond_Zopp s (Zpos m) / 2 ^ (- e) in
        if r =? 0 then S754_zero s else double_of_Z r
  | _ => x
  end.

(** [const MTG_RATIO: number = 7/5] *)
Definition MTG_RATIO : spec_float :=
  SFdiv prec emax (double_of_Z 7) (double_of_Z 5).

(** [const customHeight: number = Math.round(customWidth * MTG_RATIO)] *)
Definition customHeight (customWidth : Z) : Z :=
  Z_of_double (Math_round (SFmul prec emax (double_of_Z customWidth) MTG_RATIO)).

(** Rounding to the nearest integer in exact rational arithmetic, a tie
    going up: the reference the derived height is compared with. *)
Definition round_half_up (q : Q) : Z := Qfloor (q + (1 # 2))%Q.

Definition exact_height (w : Z) : Z := round_half_up (inject_Z w * (7 # 5))%Q.

(** ** Data model *)

(** A decoded image, identified by the data URL it was loaded from. *)
Record HTMLImageElement : Type := { img_src : string }.

Record ImageData : Type := {
  id : Z;
  src : string;
  image : HTMLImageElement;
  name : string;
  position : Z
}.

Record GridSize : Type := { rows : Z; cols : Z }.

Record CellDimensions : Type := { width : Z; height : Z }.

(** The three [useState] cells of the component.  The cell height is not
    among them. *)
Record AppState : Type := {
  images : list ImageData;
  gridSize : GridSize;
  customWidth : Z
}.

Definition initialState : AppState :=
  {| images := []; gridSize := {| rows := 7; cols := 10 |}; customWidth := 300 |}.

Definition getActualCellDimensions (st : AppState) : CellDimensions :=
  {| width := customWidth st; height := customHeight (customWidth st) |}.

Definition cellDimensions (st : AppState) : CellDimensions :=
  getActualCellDimensions st.

(** ** Updates of the image list *)

(** A file picked in the upload dialogue; [file_data] is the data URL that
    the [FileReader] produces for it. *)
Record File : Type := {
  file_name : string;
  file_type : string;
  file_data : string
}.

Definition startsWith (s p : string) : bool := String.prefix p s.

(** The updater run when the image of [file] has been decoded: [now] is the
    reading of [Date.now()] at that moment, [index] the place of the file in
    the selection. *)
Definition appendImage (now index : Z) (file : File)
    (prev : list ImageData) : list ImageData :=
  prev ++ [ {| id := now + index;
               src := file_data file;
               image := {| img_src := file_data file |};
               name := file_name file;
               position := Z.of_nat (length prev) |} ].

(** One file of [handleImageUpload]: files of another MIME type start no
    reader and never reach the list. *)
Definition handleImageUpload (now index : Z) (file : File)
    (prev : list ImageData) : list ImageData :=
  if startsWith (file_type file) "image/"
  then appendImage now index file prev
  else prev.

Definition setPosition (img : ImageData) (newPosition : Z) : ImageData :=
  {| id := id img; src := src img; image := image img; name := name img;
     position := newPosition |}.

Definition moveImage (imageId newPosition : Z)
    (prev : list ImageData) : list ImageData :=
  (fun img => if id img =? imageId then setPosition img newPosition else img)
    <$> prev.

Definition removeImage (imageId : Z) (prev : list ImageData) : list ImageData :=
  filter (fun img => id img <> imageId) prev.

Definition clearAll : list ImageData := [].

Definition autoArrange (prev : list ImageData) : list ImageData :=
  imap (fun index img => setPosition img (Z.of_nat index)) prev.

(** ** Handlers of the input fields *)

Definition handleGridRowsChange (value : string) (prev : GridSize) : GridSize :=
  {| rows := js_or (parseInt value) 1; cols := cols prev |}.

Definition handleGridColsChange (value : string) (prev : GridSize) : GridSize :=
  {| rows := rows prev; cols := js_or (parseInt value) 1 |}.

(** [setCustomWidth(parseInt(value))]: the range control delivers numerals
    only; a value that does not parse has no integer to store. *)
Definition handleCustomWidthChange (value : string) : option Z :=
  match parseInt value with
  | NaN => None
  | Num w => Some w
  end.

Definition handlePositionChange (imageId : Z) (value : string)
    (prev : list ImageData) : list ImageData :=
  moveImage imageId (js_or (js_sub (parseInt value) 1) 0) prev.

(** ** The session as a transition system *)

Inductive action : Type :=
| ImageLoaded (now index : Z) (file : File)
| PositionChange (imageId : Z) (value : string)
| RemoveImage (imageId : Z)
| ClearAll
| AutoArrange
| GridRowsChange (value : string)
| GridColsChange (value : string)
| CustomWidthChange (value : string).

Definition setImages (f : list ImageData -> list ImageData) (st : AppState) : AppState :=
  {| images := f (images st); gridSize := gridSize st; customWidth := customWidth st |}.

Definition setGridSize (f : GridSize -> GridSize) (st : AppState) : AppState :=
  {| images := images st; gridSize := f (gridSize st); customWidth := customWidth st |}.

Definition setCustomWidth (w : Z) (st : AppState) : AppState :=
  {| images := images st; gridSize := gridSize st; customWidth := w |}.

(** One event of the session.  A width that does not parse, which the
    range control cannot deliver, leaves the state as it is. *)
Definition step (st : AppState) (a : action) : AppState :=
  match a with
  | ImageLoaded now index file => setImages (handleImageUpload now index file) st
  | PositionChange imageId value => setImages (handlePositionChange imageId value) st
  | RemoveImage imageId => setImages (removeImage imageId) st
  | ClearAll => setImages (fun _ => clearAll) st
  | AutoArrange => setImages autoArrange st
  | GridRowsChange value => setGridSize (handleGridRowsChange value) st
  | GridColsChange value => setGridSize (handleGridColsChange value) st
  | CustomWidthChange value =>
      match handleCustomWidthChange value with
      | Some w => setCustomWidth w st
      | None => st
      end
  end.

Definition run (st : AppState) (l : list action) : AppState := fold_left step l st.

(** ** The canvas *)

(** State of a 2d rendering context: the current transformation (the
    renderer only ever scales), the stroke settings, and the current path as
    a pen position and a list of segments in device space. *)
Record Context2D : Type := {
  scaleX : Z;
  scaleY : Z;
  strokeStyle : string;
  lineWidth : Z;
  pen : option (Z * Z);
  path : list ((Z * Z) * (Z * Z))
}.

Definition defaultContext : Context2D :=
  {| scaleX := 1; scaleY := 1; strokeStyle := "#000000"; lineWidth := 1;
     pen := None; path := [] |}.

(** What has been painted, in device pixels. *)
Inductive layer : Type :=
| Cleared (x y w h : Z)
| Stroked (style : string) (x y w h : Z)
| Drawn (img : HTMLImageElement) (x y w h : Z).

Record HTMLCanvasElement : Type := {
  canvas_width : Z;
  canvas_height : Z;
  style_width : string;
  style_height : string;
  contextType : option string;
  context : Context2D;
  bitmap : list layer
}.

(** A canvas as the browser creates it. *)
Definition newCanvas : HTMLCanvasElement :=
  {| canvas_width := 300; canvas_height := 150;
     style_width := ""; style_height := "";
     contextType := None; context := defaultContext; bitmap := [] |}.

(** [canvas.getContext('2d')]: [null] when the canvas is bound to a context
    of another type. *)
Definition getContext (canvas : HTMLCanvasElement) : option HTMLCanvasElement :=
  match contextType canvas with
  | None =>
      Some {| canvas_width := canvas_width canvas;
              canvas_height := canvas_height canvas;
              style_width := style_width canvas;
              style_height := style_height canvas;
              contextType := Some "2d";
              context := context canvas;
              bitmap := bitmap canvas |}
  | Some t => if String.eqb t "2d" then Some canvas else None
  end.

(** Assigning [canvas.width] or [canvas.height] resizes the bitmap, which
    clears it and resets the context to its default state. *)
Definition set_width (v : Z) (canvas : HTMLCanvasElement) : HTMLCanvasElement :=
  {| canvas_width := v; canvas_height := canvas_height canvas;
     style_width := style_width canvas; style_height := style_height canvas;
     contextType := contextType canvas;
     context := defaultContext; bitmap := [] |}.

Definition set_height (v : Z) (canvas : HTMLCanvasElement) : HTMLCanvasElement :=
  {| canvas_width := canvas_width canvas; canvas_height := v;
     style_width := style_width canvas; style_height := style_height canvas;
     contextType := contextType canvas;
     context := defaultContext; bitmap := [] |}.

Definition set_style_width (v : string) (canvas : HTMLCanvasElement) : HTMLCanvasElement :=
  {| canvas_width := canvas_width canvas; canvas_height := canvas_height canvas;
     style_width := v; style_height := style_height canvas;
     contextType := contextType canvas;
     context := context canvas; bitmap := bitmap canvas |}.

Definition set_style_height (v : string) (canvas : HTMLCanvasElement) : HTMLCanvasElement :=
  {| canvas_width := canvas_width canvas; canvas_height := canvas_height canvas;
     style_width := style_width canvas; style_height := v;
     contextType := contextType canvas;
     context := context canvas; bitmap := bitmap canvas |}.

Definition with_context (f : Context2D -> Context2D) (canvas : HTMLCanvasElement) : HTMLCanvasElement :=
  {| canvas_width := canvas_width canvas; canvas_height := canvas_height canvas;
     style_width := style_width canvas; style_height := style_height canvas;
     contextType := contextType canvas;
     context := f (context canvas); bitmap := bitmap canvas |}.

Definition paint (ls : list layer) (canvas : HTMLCanvasElement) : HTMLCanvasElement :=
  {| canvas_width := canvas_width canvas; canvas_height := canvas_height canvas;
     style_width := style_width canvas; style_height := style_height canvas;
     contextType := contextType canvas;
     context := context canvas; bitmap := ls ++ bitmap canvas |}.

(** [ctx.scale(x, y)] *)
Definition scale (x y : Z) : HTMLCanvasElement -> HTMLCanvasElement :=
  with_context (fun c =>
    {| scaleX := scaleX c * x; scaleY := scaleY c * y;
       strokeStyle := strokeStyle c; lineWidth := lineWidth c;
       pen := pen c; path := path c |}).

Definition set_strokeStyle (v : string) : HTMLCanvasElement -> HTMLCanvasElement :=
  with_context (fun c =>
    {| scaleX := scaleX c; scaleY := scaleY c;
       strokeStyle := v; lineWidth := lineWidth c;
       pen := pen c; path := path c |}).

Definition set_lineWidth (v : Z) : HTMLCanvasElement -> HTMLCanvasElement :=
  with_context (fun c =>
    {| scaleX := scaleX c; scaleY := scaleY c;
       strokeStyle := strokeStyle c; lineWidth := v;
       pen := pen c; path := path c |}).

Definition beginPath : HTMLCanvasElement -> HTMLCanvasElement :=
  with_context (fun c =>
    {| scaleX := scaleX c; scaleY := scaleY c;
       strokeStyle := strokeStyle c; lineWidth := lineWidth c;
       pen := None; path := [] |}).

Definition moveTo (x y : Z) : HTMLCanvasElement -> HTMLCanvasElement :=
  with_context (fun c =>
    {| scaleX := scaleX c; scaleY := scaleY c;
       strokeStyle := strokeStyle c; lineWidth := lineWidth c;
       pen := Some (scaleX c * x, scaleY c * y); path := path c |}).

(** With no current point [lineTo] behaves as [moveTo]. *)
Definition lineTo (x y : Z) : HTMLCanvasElement -> HTMLCanvasElement :=
  with_context (fun c =>
    let p := (scaleX c * x, scaleY c * y) in
    {| scaleX := scaleX c; scaleY := scaleY c;
       strokeStyle := strokeStyle c; lineWidth := lineWidth c;
       pen := Some p;
       path := match pen c with
               | Some q => path c ++ [(q, p)]
               | None => path c
               end |}).

(** The device rectangle a stroked segment covers (butt caps).  Only
    segments parallel to an axis are given an extent: the renderer strokes
    no others. *)
Definition strokeSegment (c : Context2D) (s : (Z * Z) * (Z * Z)) : list layer :=
  let '((x0, y0), (x1, y1)) := s in
  if x0 =? x1 then
    let w := scaleX c * lineWidth c in
    [Stroked (strokeStyle c) (x0 - w / 2) (Z.min y0 y1) w (Z.abs (y1 - y0))]
  else if y0 =? y1 then
    let h := scaleY c * lineWidth c in
    [Stroked (strokeStyle c) (Z.min x0 x1) (y0 - h / 2) (Z.abs (x1 - x0)) h]
  else [].

(** [ctx.stroke()] *)
Definition stroke (canvas : HTMLCanvasElement) : HTMLCanvasElement :=
  let c := context canvas in
  paint (rev (concat (strokeSegment c <$> path c))) canvas.

(** [ctx.clearRect(x, y, w, h)] *)
Definition clearRect (x y w h : Z) (canvas : HTMLCanvasElement) : HTMLCanvasElement :=
  let c := context canvas in
  paint [Cleared (scaleX c * x) (scaleY c * y) (scaleX c * w) (scaleY c * h)] canvas.

(** [ctx.drawImage(image, dx, dy, dw, dh)]: the whole image, stretched to
    the destination rectangle. *)
Definition drawImage (img : HTMLImageElement) (dx dy dw dh : Z)
    (canvas : HTMLCanvasElement) : HTMLCanvasElement :=
  let c := context canvas in
  paint [Drawn img (scaleX c * dx) (scaleY c * dy) (scaleX c * dw) (scaleY c * dh)] canvas.

(** *** Reading the bitmap *)

(** What a device pixel shows: nothing, the stroke colour, or the sample of
    an image stretched to a destination rectangle, composited source-over
    on what the pixel showed before. *)
Inductive pixel : Type :=
| Transparent
| StrokePixel (style : string)
| ImageOver (img : HTMLImageElement) (x y w h : Z) (beneath : pixel).

(** The pixels of a rectangle of positive extent (the renderer paints no
    other). *)
Definition inRect (x y w h X Y : Z) : bool :=
  (x <=? X) && (X <? x + w) && (y <=? Y) && (Y <? y + h).

Definition covers (l : layer) (X Y : Z) : bool :=
  match l with
  | Cleared x y w h | Stroked _ x y w h | Drawn _ x y w h => inRect x y w h X Y
  end.

(** [clearRect] erases, a stroke in the opaque line colour replaces, and
    [drawImage] composites over what lies beneath. *)
Fixpoint pixelOf (layers : list layer) (X Y : Z) : pixel :=
  match layers with
  | [] => Transparent
  | l :: older =>
      if covers l X Y then
        match l with
        | Cleared _ _ _ _ => Transparent
        | Stroked style _ _ _ _ => StrokePixel style
        | Drawn img x y w h => ImageOver img x y w h (pixelOf older X Y)
        end
      else pixelOf older X Y
  end.

(** The bitmap has [canvas_width] by [canvas_height] pixels. *)
Definition inBitmap (canvas : HTMLCanvasElement) (X Y : Z) : Prop :=
  0 <= X < canvas_width canvas /\ 0 <= Y < canvas_height canvas.

Definition getPixel (canvas : HTMLCanvasElement) (X Y : Z) : pixel :=
  pixelOf (bitmap canvas) X Y.

(** ** The renderer *)

Definition px (n : Z) : string := pretty n +:+ "px".

(** The body of [images.forEach] in [drawCanvas].  For [cols = 0] the
    column [position % 0] is [NaN] and the comparison [col < cols] fails. *)
Definition drawEntry (gridSize : GridSize) (cellWidth cellHeight : Z)
    (canvas : HTMLCanvasElement) (imgData : ImageData) : HTMLCanvasElement :=
  if cols gridSize =? 0 then canvas
  else
    let row := position imgData / cols gridSize in
    let col := Z.rem (position imgData) (cols gridSize) in
    if (row <? rows gridSize) && (col <? cols gridSize) then
      let x := col * cellWidth in
      let y := row * cellHeight in
      drawImage (image imgData) x y cellWidth cellHeight canvas
    else canvas.

(** [drawCanvas] once the canvas and its 2d context have been obtained. *)
Definition render (images : list ImageData) (gridSize : GridSize)
    (cellDimensions : CellDimensions)
    (canvas : HTMLCanvasElement) : HTMLCanvasElement :=
  let cellWidth := width cellDimensions in
  let cellHeight := height cellDimensions in
  let totalWidth := cols gridSize * cellWidth in
  let totalHeight := rows gridSize * cellHeight in
  let devicePixelRatio := 2 in
  let canvas := set_width (totalWidth * devicePixelRatio) canvas in
  let canvas := set_height (totalHeight * devicePixelRatio) canvas in
  let canvas := set_style_width (px totalWidth) canvas in
  let canvas := set_style_height (px totalHeight) canvas in
  let canvas := scale devicePixelRatio devicePixelRatio canvas in
  let canvas := clearRect 0 0 totalWidth totalHeight canvas in
  let canvas := set_strokeStyle "#ccc" canvas in
  let canvas := set_lineWidth 2 canvas in
  let canvas :=
    fold_left (fun canvas i =>
                 stroke (lineTo (i * cellWidth) totalHeight
                           (moveTo (i * cellWidth) 0 (beginPath canvas))))
              (seqZ 0 (cols gridSize + 1)) canvas in
  let canvas :=
    fold_left (fun canvas i =>
                 stroke (lineTo totalWidth (i * cellHeight)
                           (moveTo 0 (i * cellHeight) (beginPath canvas))))
              (seqZ 0 (rows gridSize + 1)) canvas in
  fold_left (drawEntry gridSize cellWidth cellHeight) images canvas.

(** [drawCanvas]: nothing happens without a mounted canvas or without a 2d
    context. *)
Definition drawCanvas (st : AppState)
    (canvasRef : option HTMLCanvasElement) : option HTMLCanvasElement :=
  match canvasRef with
  | None => None
  | Some canvas =>
      match getContext canvas with
      | None => Some canvas
      | Some canvas =>
          Some (render (images st) (gridSize st) (cellDimensions st) canvas)
      end
  end.

(** ** The form fields

    What the controlled inputs of the form display, and the attributes
    derived from the state. *)

(** The text of a number in a field.  For a safe integer it is the decimal
    numeral; for larger numbers (shortest round-trip digits, exponent form
    from 1e21 on) the text is not modelled. *)
Definition numberToString (n : Z) : option string :=
  if isSafeInteger n then Some (pretty n) else None.

(** [value={gridSize.rows}] and [value={gridSize.cols}] *)
Definition rowsFieldValue (g : GridSize) : option string :=
  numberToString (rows g).

Definition colsFieldValue (g : GridSize) : option string :=
  numberToString (cols g).

(** [value={customWidth}] *)
Definition widthFieldValue (st : AppState) : option string :=
  numberToString (customWidth st).

(** [value={img.position + 1}]: the sum is exact for a safe position. *)
Definition positionFieldValue (img : ImageData) : option string :=
  if isSafeInteger (position img) then numberToString (position img + 1) else None.

(** [max={gridSize.rows * gridSize.cols}] of the position field *)
Definition positionFieldMax (g : GridSize) : Z := rows g * cols g.

(** * Vocabulary of the statements *)

Definition double_eqb (x y : spec_float) : bool :=
  match x, y with
  | S754_zero s, S754_zero t => Bool.eqb s t
  | S754_infinity s, S754_infinity t => Bool.eqb s t
  | S754_nan, S754_nan => true
  | S754_finite s m e, S754_finite t n f =>
      Bool.eqb s t && (m =? n)%positive && (e =? f)
  | _, _ => false
  end.

(** The double computation and the exact rounding agree on one width. *)
Definition heightAgrees (w : Z) : bool :=
  double_eqb (Math_round (SFmul prec emax (double_of_Z w) MTG_RATIO))
             (double_of_Z (exact_height w))
  && (customHeight w =? exact_height w).

(** The row [Math.floor(p / c)] computed in doubles is the quotient [p / c]
    of [Z]. *)
Definition floorAgrees (c p : Z) : bool :=
  double_eqb (Math_floor (SFdiv prec emax (double_of_Z p) (double_of_Z c)))
             (double_of_Z (p / c)).

(** The fields of an entry other than its position. *)
Definition identityOf (img : ImageData) : Z * string * HTMLImageElement * string :=
  (id img, src img, image img, name img).

(** Two canvases with the same attributes and the same transformation. *)
Definition sameSetup (c c' : HTMLCanvasElement) : Prop :=
  canvas_width c' = canvas_width c
  /\ canvas_height c' = canvas_height c
  /\ style_width c' = style_width c
  /\ style_height c' = style_height c
  /\ contextType c' = contextType c
  /\ scaleX (context c') = scaleX (context c)
  /\ scaleY (context c') = scaleY (context c).

Definition notDrawn (l : layer) : Prop :=
  match l with
  | Drawn _ _ _ _ _ => False
  | _ => True
  end.

(** One grid line: [beginPath], [moveTo], [lineTo], [stroke]. *)
Definition strokeLine (x0 y0 x1 y1 : Z) (canvas : HTMLCanvasElement) : HTMLCanvasElement :=
  stroke (lineTo x1 y1 (moveTo x0 y0 (beginPath canvas))).

(** The canvas once resized, cleared and ruled, before any image is drawn:
    the renderer run on the empty list. *)
Definition ruled (g : GridSize) (cd : CellDimensions)
    (canvas : HTMLCanvasElement) : HTMLCanvasElement :=
  render [] g cd canvas.

(** The canvas right after the four assignments and [scale] and
    [clearRect]: nothing of the previous content is left but the context
    type. *)
Definition cleared (g : GridSize) (cd : CellDimensions)
    (t : option string) : HTMLCanvasElement :=
  {| canvas_width := cols g * width cd * 2;
     canvas_height := rows g * height cd * 2;
     style_width := px (cols g * width cd);
     style_height := px (rows g * height cd);
     contextType := t;
     context := {| scaleX := 1 * 2; scaleY := 1 * 2;
                   strokeStyle := "#ccc"; lineWidth := 2;
                   pen := None; path := [] |};
     bitmap := [Cleared (1 * 2 * 0) (1 * 2 * 0)
                        (1 * 2 * (cols g * width cd))
                        (1 * 2 * (rows g * height cd))] |}.

(** The layer an entry contributes under the transformation [(sx, sy)]. *)
Definition entryLayers (g : GridSize) (w h sx sy : Z) (e : ImageData) : list layer :=
  if cols g =? 0 then []
  else if (position e / cols g <? rows g) && (Z.rem (position e) (cols g) <? cols g)
       then [Drawn (image e)
                   (sx * (Z.rem (position e) (cols g) * w))
                   (sy * (position e / cols g * h))
                   (sx * w) (sy * h)]
       else [].

Fixpoint imageLayers (g : GridSize) (w h sx sy : Z) (l : list ImageData) : list layer :=
  match l with
  | [] => []
  | e :: l' => imageLayers g w h sx sy l' ++ entryLayers g w h sx sy e
  end.

Definition uncovered (X Y : Z) (ls : list layer) : Prop :=
  Forall (fun l => covers l X Y = false) ls.

(** The row and column the renderer derives from a position. *)
Definition cellOf (g : GridSize) (p : Z) : Z * Z :=
  (p / cols g, Z.rem p (cols g)).

(** Both indices within the grid. *)
Definition inGrid (g : GridSize) (p : Z) : Prop :=
  0 <= p / cols g < rows g /\ 0 <= p mod cols g < cols g.

(** The device pixels of the cell of position [p], and what they show when
    [img] is drawn to that cell over [beneath]: the logical rectangle
    [(col * width, row * height, width, height)] under the scale of 2. *)
Definition inCell (g : GridSize) (cd : CellDimensions) (p X Y : Z) : Prop :=
  inRect (2 * (p mod cols g * width cd)) (2 * (p / cols g * height cd))
         (2 * width cd) (2 * height cd) X Y = true.

Definition cellPixel (g : GridSize) (cd : CellDimensions)
    (img : HTMLImageElement) (p : Z) (beneath : pixel) : pixel :=
  ImageOver img (2 * (p mod cols g * width cd)) (2 * (p / cols g * height cd))
            (2 * width cd) (2 * height cd) beneath.

(** The images of the entries at position [p], composited in list order on
    [base]. *)
Fixpoint imagesOver (g : GridSize) (cd : CellDimensions) (p : Z)
    (imgs : list ImageData) (base : pixel) : pixel :=
  match imgs with
  | [] => base
  | e :: l =>
      imagesOver g cd p l
        (if position e =? p then cellPixel g cd (image e) p base else base)
  end.

(** A model of the colours: how an image stretched to a rectangle is
    sampled at a pixel, which colours are opaque, and source-over
    compositing, of which only one law is used: an opaque source hides what
    is beneath it. *)
Record Compositing : Type := {
  colour : Type;
  clearColour : colour;
  strokeColour : string -> colour;
  sample : HTMLImageElement -> Z -> Z -> Z -> Z -> Z -> Z -> colour;
  opaque : colour -> Prop;
  over : colour -> colour -> colour;
  over_opaque : forall s b, opaque s -> over s b = s
}.

(** The colour of a pixel at [(X, Y)]. *)
Fixpoint colourOf (M : Compositing) (p : pixel) (X Y : Z) : colour M :=
  match p with
  | Transparent => clearColour M
  | StrokePixel style => strokeColour M style
  | ImageOver img x y w h beneath =>
      over M (sample M img x y w h X Y) (colourOf M beneath X Y)
  end.


(** Two canvases that look the same: same sizes, same pixels. *)
Definition sameBuffer (c c' : HTMLCanvasElement) : Prop :=
  canvas_width c' = canvas_width c
  /\ canvas_height c' = canvas_height c
  /\ style_width c' = style_width c
  /\ style_height c' = style_height c
  /\ forall X Y, inBitmap c X Y -> getPixel c' X Y = getPixel c X Y.

Definition card (p : Z) (data : string) : ImageData :=
  {| id := 0; src := data; image := {| img_src := data |}; name := data;
     position := p |}.

(** A canvas that has never been drawn on, bound to context type [t]. *)
Definition blank (t : option string) : HTMLCanvasElement :=
  {| canvas_width := 300; canvas_height := 150;
     style_width := ""; style_height := "";
     contextType := t; context := defaultContext; bitmap := [] |}.

Definition nonNegative (imgs : list ImageData) : Prop :=
  Forall (fun e => 0 <= position e) imgs.

(** A position field holding nothing numeric, or the numeral of a safe
    integer that is at least 1. *)
Definition positionInputOk (a : action) : Prop :=
  match a with
  | PositionChange _ value =>
      match parseInt value with
      | NaN => True
      | Num n => 1 <= n <= MAX_SAFE_INTEGER
      end
  | _ => True
  end.

Definition png (data : string) : File :=
  {| file_name := data; file_type := "image/png"; file_data := data |}.

(** A rows or columns field holding nothing numeric, or a numeral that is
    not negative. *)
Definition gridInputOk (a : action) : Prop :=
  match a with
  | GridRowsChange value | GridColsChange value =>
      match parseInt value with
      | NaN => True
      | Num n => 0 <= n
      end
  | _ => True
  end.

Definition gridShapeOk (st : AppState) : Prop :=
  1 <= rows (gridSize st) /\ 1 <= cols (gridSize st).

Definition ids (st : AppState) : list Z := id <$> images st.

(** The id an upload generates is not yet in the list. *)
Definition freshId (st : AppState) (a : action) : Prop :=
  match a with
  | ImageLoaded now index file => now + index ∉ ids st
  | _ => True
  end.

(** Every upload of a run generates an id that is not in the list at that
    moment. *)
Fixpoint freshRun (st : AppState) (l : list action) : Prop :=
  match l with
  | [] => True
  | a :: l' => freshId st a /\ freshRun (step st a) l'
  end.

(** What an operation does to the list of ids. *)
Definition idsAfter (a : action) (l : list Z) : list Z :=
  match a with
  | ImageLoaded now index file =>
      l ++ (if startsWith (file_type file) "image/" then [now + index] else [])
  | RemoveImage imageId => filter (fun i => i <> imageId) l
  | ClearAll => []
  | _ => l
  end.

(** Decimal numerals: strings of the digits 0 to 9 and their value read
    from the left. *)
Definition isDecimalDigit (c : ascii) : bool :=
  (48 <=? code c) && (code c <=? 57).

Fixpoint allDigits (s : string) : bool :=
  match s with
  | EmptyString => true
  | String c r => isDecimalDigit c && allDigits r
  end.

Fixpoint decimalValue (acc : Z) (s : string) : Z :=
  match s with
  | EmptyString => acc
  | String c r => decimalValue (10 * acc + (code c - 48)) r
  end.

(** A text after which a decimal numeral ends: empty, or starting with a
    character that is neither a digit nor the [x] of a hexadecimal prefix. *)
Definition endsNumeral (rest : string) : bool :=
  match rest with
  | EmptyString => true
  | String c _ =>
      negb (isDecimalDigit c) && negb (code c =? 120) && negb (code c =? 88)
  end.

(** Every entry sits at the position equal to its list index. *)
Definition positionsSequential (l : list ImageData) : Prop :=
  position <$> l = Z.of_nat <$> seq 0 (length l).

(** A run of completed uploads: each item is the clock reading, the index
    in the selection and the file. *)
Definition uploads (fs : list (Z * Z * File)) (prev : list ImageData) : list ImageData :=
  fold_left (fun l f => handleImageUpload f.1.1 f.1.2 f.2 l) fs prev.

Definition accepted (f : Z * Z * File) : bool := startsWith (file_type f.2) "image/".

(** An event that changes a grid dimension. *)
Definition isGridChange (a : action) : Prop :=
  match a with
  | GridRowsChange _ | GridColsChange _ => True
  | _ => False
  end.

(** The last entry of the list that has position [p]. *)
Fixpoint lastAt (p : Z) (imgs : list ImageData) : option ImageData :=
  match imgs with
  | [] => None
  | e :: l =>
      match lastAt p l with
      | Some e' => Some e'
      | None => if position e =? p then Some e else None
      end
  end.

(** The position whose cell holds the device pixel [(X, Y)]. *)
Definition positionAt (g : GridSize) (cd : CellDimensions) (X Y : Z) : Z :=
  Y / (2 * height cd) * cols g + X / (2 * width cd).

(** The context as the renderer has set it up before it rules the grid. *)
Definition ctxRuling (canvas : HTMLCanvasElement) : Prop :=
  scaleX (context canvas) = 2 /\ scaleY (context canvas) = 2
  /\ lineWidth (context canvas) = 2 /\ strokeStyle (context canvas) = "#ccc".

(** The device pixel [(X, Y)] lies within two pixels of a cell boundary. *)
Definition onGridLine (cd : CellDimensions) (X Y : Z) : bool :=
  ((X + 2) mod (2 * width cd) <? 4) || ((Y + 2) mod (2 * height cd) <? 4).

(** * Properties *)

(** Case analysis on the event of a step. *)
Ltac each_action a :=
  destruct a as [now index file|imageId value|imageId| | |v|v|v]; simpl.

(** ** Cell height *)

Lemma double_eqb_eq (x y : spec_float) : double_eqb x y = true -> x = y.
Proof.
  destruct x as [s|s| |s m e], y as [t|t| |t n f]; simpl; try discriminate.
  - intros H. apply Bool.eqb_prop in H. congruence.
  - intros H. apply Bool.eqb_prop in H. congruence.
  - reflexivity.
  - intros H. apply andb_prop in H as [H He]. apply andb_prop in H as [Hs Hm].
    apply Bool.eqb_prop in Hs. apply Pos.eqb_eq in Hm. apply Z.eqb_eq in He.
    congruence.
Qed.

Lemma heightAgrees_table : forallb heightAgrees (seqZ 200 401) = true.
Proof. vm_compute. reflexivity. Qed.

Lemma heightAgrees_range (w : Z) : 200 <= w <= 600 -> heightAgrees w = true.
Proof.
  intros Hw.
  pose proof heightAgrees_table as T.
  rewrite forallb_forall in T. apply T.
  apply list_elem_of_In, elem_of_seqZ. lia.
Qed.

(** C4: for every integer width in [200, 600] the height the program
    derives in double precision is the exact rational [w * 7/5] rounded to
    the nearest integer; the height is no state cell of its own, it is
    recomputed from the width in every state. *)
Theorem customHeight_exact_rounding (w : Z) :
  200 <= w <= 600 ->
  Math_round (SFmul prec emax (double_of_Z w) MTG_RATIO)
    = double_of_Z (round_half_up (inject_Z w * (7 # 5))%Q)
  /\ customHeight w = round_half_up (inject_Z w * (7 # 5))%Q
  /\ (forall st l, customWidth (run st l) = w ->
        cellDimensions (run st l)
          = {| width := w; height := round_half_up (inject_Z w * (7 # 5))%Q |}).
Proof.
  intros Hw.
  pose proof (heightAgrees_range w Hw) as H.
  unfold heightAgrees in H. apply andb_prop in H as [Hd Hz].
  apply double_eqb_eq in Hd. apply Z.eqb_eq in Hz.
  fold (exact_height w).
  split; [exact Hd|]. split; [exact Hz|].
  intros st l Hst. unfold cellDimensions, getActualCellDimensions.
  rewrite Hst, Hz. reflexivity.
Qed.

Lemma customHeight_exact_rounding_300 :
  200 <= 300 <= 600 /\ customHeight 300 = 420.
Proof.
  split; [lia|].
  exact (proj1 (proj2 (customHeight_exact_rounding 300 ltac:(lia)))).
Defined.

(** The integer row of [drawEntry] is the row computed in doubles, for the
    grids the interface offers (up to 20 columns) and the positions around
    them. *)
Lemma floor_quotient_exact (c p : Z) :
  1 <= c <= 20 -> -20 <= p <= 420 ->
  Math_floor (SFdiv prec emax (double_of_Z p) (double_of_Z c)) = double_of_Z (p / c).
Proof.
  intros Hc Hp. apply double_eqb_eq. fold (floorAgrees c p).
  assert (T : forallb (fun c => forallb (floorAgrees c) (seqZ (-20) 441)) (seqZ 1 20) = true)
    by (vm_compute; reflexivity).
  rewrite forallb_forall in T.
  specialize (T c ltac:(apply list_elem_of_In, elem_of_seqZ; lia)).
  rewrite forallb_forall in T. apply T.
  apply list_elem_of_In, elem_of_seqZ. lia.
Qed.

(** ** Updates of the image list *)

Lemma identityOf_setPosition (img : ImageData) (p : Z) :
  identityOf (setPosition img p) = identityOf img.
Proof. reflexivity. Qed.

Lemma position_setPosition (img : ImageData) (p : Z) :
  position (setPosition img p) = p.
Proof. reflexivity. Qed.

(** C6: auto-arrange gives the entry at list index [i] the position [i],
    whatever the positions were; the list keeps its length and order, and
    the other fields of every entry are kept.  The operation is a total
    function. *)
Theorem autoArrange_positions (prev : list ImageData) :
  position <$> autoArrange prev = Z.of_nat <$> seq 0 (length prev)
  /\ length (autoArrange prev) = length prev
  /\ identityOf <$> autoArrange prev = identityOf <$> prev.
Proof.
  unfold autoArrange. split; [|split].
  - apply list_eq. intros i.
    rewrite !list_lookup_fmap, list_lookup_imap.
    destruct (prev !! i) as [e|] eqn:He; simpl.
    + rewrite (lookup_seq_lt _ _ _ (lookup_lt_Some _ _ _ He)). reflexivity.
    + rewrite lookup_seq_ge; [reflexivity|].
      apply lookup_ge_None in He. lia.
  - apply length_imap.
  - apply list_eq. intros i.
    rewrite !list_lookup_fmap, list_lookup_imap.
    destruct (prev !! i); reflexivity.
Qed.

(** C10: [moveImage] keeps the list's length and order and every entry's
    id, src, image and name; an entry whose id matches gets the new
    position, every other entry is returned as it was. *)
Theorem moveImage_frame (imageId newPosition : Z) (prev : list ImageData) :
  length (moveImage imageId newPosition prev) = length prev
  /\ identityOf <$> moveImage imageId newPosition prev = identityOf <$> prev
  /\ forall (i : nat) (img : ImageData),
       prev !! i = Some img ->
       moveImage imageId newPosition prev !! i
         = Some (if id img =? imageId then setPosition img newPosition else img)
       /\ (id img = imageId ->
             moveImage imageId newPosition prev !! i
               = Some {| id := id img; src := src img; image := image img;
                         name := name img; position := newPosition |})
       /\ (id img <> imageId ->
             moveImage imageId newPosition prev !! i = Some img).
Proof.
  unfold moveImage. split; [|split].
  - apply length_fmap.
  - rewrite <- list_fmap_compose. apply list_fmap_ext.
    intros i img _. simpl. destruct (id img =? imageId); reflexivity.
  - intros i img Hi. rewrite list_lookup_fmap, Hi. simpl.
    split; [reflexivity|]. split; intros H.
    + apply Z.eqb_eq in H. rewrite H. reflexivity.
    + apply Z.eqb_neq in H. rewrite H. reflexivity.
Qed.

Lemma moveImage_frame_two_cards :
  [card 0 "a"; card 1 "b"] !! 0%nat = Some (card 0 "a")
  /\ moveImage 0 4 [card 0 "a"; card 1 "b"] !! 0%nat = Some (card 4 "a").
Proof.
  split; [reflexivity|].
  exact (proj1 (proj2 (proj2 (proj2 (moveImage_frame 0 4 [card 0 "a"; card 1 "b"]))
                         0%nat (card 0 "a") eq_refl))
               eq_refl).
Defined.

(** ** The renderer, phase by phase *)

Lemma sameSetup_refl (c : HTMLCanvasElement) : sameSetup c c.
Proof. repeat split. Qed.

Lemma sameSetup_trans (c1 c2 c3 : HTMLCanvasElement) :
  sameSetup c1 c2 -> sameSetup c2 c3 -> sameSetup c1 c3.
Proof. unfold sameSetup. intros H1 H2. intuition congruence. Qed.

Lemma strokeSegment_notDrawn (c : Context2D) (s : (Z * Z) * (Z * Z)) :
  Forall notDrawn (strokeSegment c s).
Proof.
  destruct s as [[x0 y0] [x1 y1]]. unfold strokeSegment.
  destruct (x0 =? x1); [|destruct (y0 =? y1)];
    repeat constructor.
Qed.

Lemma strokeLine_setup (x0 y0 x1 y1 : Z) (canvas : HTMLCanvasElement) :
  sameSetup canvas (strokeLine x0 y0 x1 y1 canvas).
Proof. repeat split. Qed.

Lemma stroke_notDrawn (canvas : HTMLCanvasElement) :
  Forall notDrawn (bitmap canvas) -> Forall notDrawn (bitmap (stroke canvas)).
Proof.
  intros H. unfold stroke, paint. cbn [bitmap].
  apply Forall_app. split; [|exact H].
  apply Forall_rev, Forall_concat, Forall_fmap, Forall_forall.
  intros s _. apply strokeSegment_notDrawn.
Qed.

Lemma strokeLine_notDrawn (x0 y0 x1 y1 : Z) (canvas : HTMLCanvasElement) :
  Forall notDrawn (bitmap canvas) ->
  Forall notDrawn (bitmap (strokeLine x0 y0 x1 y1 canvas)).
Proof.
  intros H. unfold strokeLine. apply stroke_notDrawn. exact H.
Qed.

Lemma fold_strokeLine (f : Z -> Z * Z * Z * Z) (l : list Z) :
  forall canvas : HTMLCanvasElement,
    let canvas' :=
      fold_left (fun c i => let '(x0, y0, x1, y1) := f i in strokeLine x0 y0 x1 y1 c)
                l canvas in
    sameSetup canvas canvas'
    /\ (Forall notDrawn (bitmap canvas) -> Forall notDrawn (bitmap canvas')).
Proof.
  induction l as [|i l IH]; intros canvas; simpl.
  - split; [apply sameSetup_refl | tauto].
  - destruct (f i) as [[[x0 y0] x1] y1] eqn:Hf.
    destruct (IH (strokeLine x0 y0 x1 y1 canvas)) as [IH1 IH2].
    split.
    + eapply sameSetup_trans; [apply strokeLine_setup | exact IH1].
    + intros H. apply IH2, strokeLine_notDrawn, H.
Qed.

Lemma render_ruled (imgs : list ImageData) (g : GridSize) (cd : CellDimensions)
    (canvas : HTMLCanvasElement) :
  render imgs g cd canvas
    = fold_left (drawEntry g (width cd) (height cd)) imgs (ruled g cd canvas).
Proof. reflexivity. Qed.

Lemma ruled_unfold (g : GridSize) (cd : CellDimensions) (canvas : HTMLCanvasElement) :
  ruled g cd canvas
    = fold_left (fun c i =>
                   let '(x0, y0, x1, y1) :=
                     (0, i * height cd, cols g * width cd, i * height cd) in
                   strokeLine x0 y0 x1 y1 c)
        (seqZ 0 (rows g + 1))
        (fold_left (fun c i =>
                      let '(x0, y0, x1, y1) :=
                        (i * width cd, 0, i * width cd, rows g * height cd) in
                      strokeLine x0 y0 x1 y1 c)
           (seqZ 0 (cols g + 1))
           (cleared g cd (contextType canvas))).
Proof. reflexivity. Qed.

Lemma ruled_setup (g : GridSize) (cd : CellDimensions) (canvas : HTMLCanvasElement) :
  sameSetup (cleared g cd (contextType canvas)) (ruled g cd canvas)
  /\ Forall notDrawn (bitmap (ruled g cd canvas)).
Proof.
  rewrite ruled_unfold.
  set (c0 := cleared g cd (contextType canvas)).
  destruct (fold_strokeLine
              (fun i => (i * width cd, 0, i * width cd, rows g * height cd))
              (seqZ 0 (cols g + 1)) c0) as [S1 D1].
  cbv zeta in S1, D1.
  set (c1 := fold_left _ (seqZ 0 (cols g + 1)) c0) in *.
  destruct (fold_strokeLine
              (fun i => (0, i * height cd, cols g * width cd, i * height cd))
              (seqZ 0 (rows g + 1)) c1) as [S2 D2].
  cbv zeta in S2, D2.
  split.
  - eapply sameSetup_trans; [exact S1 | exact S2].
  - apply D2, D1. subst c0. simpl. repeat constructor.
Qed.

(** *** The images *)

Lemma paint_nil (canvas : HTMLCanvasElement) : paint [] canvas = canvas.
Proof. destruct canvas. reflexivity. Qed.

Lemma paint_paint (l1 l2 : list layer) (canvas : HTMLCanvasElement) :
  paint l2 (paint l1 canvas) = paint (l2 ++ l1) canvas.
Proof. unfold paint. simpl. rewrite app_assoc. reflexivity. Qed.

Lemma drawEntry_paint (g : GridSize) (w h : Z) (canvas : HTMLCanvasElement) (e : ImageData) :
  drawEntry g w h canvas e
    = paint (entryLayers g w h (scaleX (context canvas)) (scaleY (context canvas)) e)
            canvas.
Proof.
  unfold drawEntry, entryLayers.
  destruct (cols g =? 0); [symmetry; apply paint_nil|].
  destruct ((position e / cols g <? rows g) && (Z.rem (position e) (cols g) <? cols g)).
  - reflexivity.
  - symmetry. apply paint_nil.
Qed.

Lemma fold_drawEntry (g : GridSize) (w h : Z) (l : list ImageData) :
  forall canvas : HTMLCanvasElement,
    fold_left (drawEntry g w h) l canvas
      = paint (imageLayers g w h (scaleX (context canvas)) (scaleY (context canvas)) l)
              canvas.
Proof.
  induction l as [|e l IH]; intros canvas; simpl.
  - symmetry. apply paint_nil.
  - rewrite IH, drawEntry_paint, paint_paint. reflexivity.
Qed.


(** The rendered canvas: the ruled canvas with the image layers on top. *)
Lemma render_layers (imgs : list ImageData) (g : GridSize) (cd : CellDimensions)
    (canvas : HTMLCanvasElement) :
  render imgs g cd canvas
    = paint (imageLayers g (width cd) (height cd) 2 2 imgs) (ruled g cd canvas).
Proof.
  rewrite render_ruled, fold_drawEntry.
  destruct (ruled_setup g cd canvas) as [(_ & _ & _ & _ & _ & Hx & Hy) _].
  rewrite Hx, Hy. reflexivity.
Qed.

Lemma render_setup (imgs : list ImageData) (g : GridSize) (cd : CellDimensions)
    (canvas : HTMLCanvasElement) :
  sameSetup (cleared g cd (contextType canvas)) (render imgs g cd canvas).
Proof.
  rewrite render_layers.
  eapply sameSetup_trans; [apply ruled_setup|]. repeat split.
Qed.

(** *** Pixels *)

Lemma pixelOf_app_uncovered (a b : list layer) (X Y : Z) :
  uncovered X Y a -> pixelOf (a ++ b) X Y = pixelOf b X Y.
Proof.
  unfold uncovered. induction 1 as [|l a Hl _ IH]; simpl.
  - reflexivity.
  - rewrite Hl. exact IH.
Qed.


Lemma pixelOf_notDrawn (ls : list layer) (X Y : Z) :
  Forall notDrawn ls ->
  forall img x y w h b, pixelOf ls X Y <> ImageOver img x y w h b.
Proof.
  induction 1 as [|l ls Hl _ IH]; intros img x y w h b; simpl.
  - discriminate.
  - destruct (covers l X Y); [|apply IH].
    destruct l; simpl in *; [discriminate | discriminate | contradiction].
Qed.

(** ** Cells *)

Lemma inRect_true (x y w h X Y : Z) :
  inRect x y w h X Y = true <-> (x <= X < x + w /\ y <= Y < y + h).
Proof. unfold inRect. rewrite !andb_true_iff, !Z.leb_le, !Z.ltb_lt. lia. Qed.

Lemma inRect_false (x y w h X Y : Z) :
  inRect x y w h X Y = false <-> ~ (x <= X < x + w /\ y <= Y < y + h).
Proof. rewrite <- inRect_true. destruct (inRect x y w h X Y); intuition congruence. Qed.

Lemma nonneg_of_row (p c : Z) : 0 < c -> 0 <= p / c -> 0 <= p.
Proof.
  intros Hc Hr. pose proof (Z.div_mod p c ltac:(lia)) as E.
  pose proof (Z.mod_pos_bound p c Hc). nia.
Qed.

Lemma row_of_negative (p c : Z) : 0 < c -> p < 0 -> p / c <= -1.
Proof.
  intros Hc Hp. pose proof (Z.div_mod p c ltac:(lia)) as E.
  pose proof (Z.mod_pos_bound p c Hc). nia.
Qed.


Lemma inGrid_nonneg (g : GridSize) (p : Z) : 1 <= cols g -> inGrid g p -> 0 <= p.
Proof. intros Hc [[Hr _] _]. apply (nonneg_of_row p (cols g)); [lia | exact Hr]. Qed.

Lemma inGrid_test (g : GridSize) (p : Z) :
  1 <= cols g -> 0 <= p ->
  ((p / cols g <? rows g) && (Z.rem p (cols g) <? cols g) = true <-> inGrid g p).
Proof.
  intros Hc Hp. unfold inGrid.
  rewrite Z.rem_mod_nonneg by lia.
  rewrite andb_true_iff, !Z.ltb_lt.
  pose proof (Z.mod_pos_bound p (cols g) ltac:(lia)).
  pose proof (Z.div_pos p (cols g) Hp ltac:(lia)).
  lia.
Qed.

Lemma entryLayers_inGrid (g : GridSize) (w h sx sy : Z) (e : ImageData) :
  1 <= cols g -> inGrid g (position e) ->
  entryLayers g w h sx sy e
    = [Drawn (image e) (sx * (position e mod cols g * w))
             (sy * (position e / cols g * h)) (sx * w) (sy * h)].
Proof.
  intros Hc Hin. pose proof (inGrid_nonneg g _ Hc Hin) as Hp.
  unfold entryLayers.
  destruct (Z.eqb_spec (cols g) 0) as [E|_]; [lia|].
  apply (inGrid_test g _ Hc Hp) in Hin. rewrite Hin.
  rewrite Z.rem_mod_nonneg by lia. reflexivity.
Qed.


(** Entries with different cells paint disjoint rectangles. *)
Lemma entryLayers_other_cell (g : GridSize) (cd : CellDimensions)
    (e e' : ImageData) (X Y : Z) :
  1 <= cols g -> 0 < width cd -> 0 < height cd ->
  inGrid g (position e) ->
  cellOf g (position e') <> cellOf g (position e) ->
  inCell g cd (position e) X Y ->
  uncovered X Y (entryLayers g (width cd) (height cd) 2 2 e').
Proof.
  intros Hc Hw Hh Hin Hne HXY. unfold entryLayers, uncovered.
  destruct (cols g =? 0); [constructor|].
  destruct ((position e' / cols g <? rows g) && (Z.rem (position e') (cols g) <? cols g));
    [|constructor].
  repeat constructor. simpl. apply inRect_false. intros [HX HY].
  apply inRect_true in HXY as [HX0 HY0].
  pose proof (inGrid_nonneg g _ Hc Hin) as Hp.
  apply Hne. unfold cellOf.
  rewrite (Z.rem_mod_nonneg (position e)) by lia.
  f_equal; nia.
Qed.


Lemma inCell_inBitmap (g : GridSize) (cd : CellDimensions) (p X Y : Z)
    (imgs : list ImageData) (canvas : HTMLCanvasElement) :
  1 <= cols g -> 0 < width cd -> 0 < height cd ->
  inGrid g p -> inCell g cd p X Y ->
  inBitmap (render imgs g cd canvas) X Y.
Proof.
  intros Hc Hw Hh [[Hr0 Hr1] [Hc0 Hc1]] HXY.
  apply inRect_true in HXY as [HX HY].
  destruct (render_setup imgs g cd canvas) as (EW & EH & _).
  unfold inBitmap. rewrite EW, EH. simpl. nia.
Qed.

(** ** Placement of an entry *)




(** ** Entries sharing a cell *)




(** ** Size of the canvas *)

(** C7: the renderer gives the canvas the logical size
    [cols * width] by [rows * height] (its CSS size, in px) and a bitmap of
    twice that size in each dimension; with the initial settings (7 rows,
    10 columns, width 300) the height is 420, the logical size 3000 by 2940
    and the bitmap 6000 by 5880. *)
Theorem canvas_size (imgs : list ImageData) (g : GridSize) (cd : CellDimensions)
    (canvas : HTMLCanvasElement) :
  style_width (render imgs g cd canvas) = px (cols g * width cd)
  /\ style_height (render imgs g cd canvas) = px (rows g * height cd)
  /\ canvas_width (render imgs g cd canvas) = 2 * (cols g * width cd)
  /\ canvas_height (render imgs g cd canvas) = 2 * (rows g * height cd)
  /\ (forall st : AppState,
        canvas_width (render (images st) (gridSize st) (cellDimensions st) canvas)
          = 2 * (cols (gridSize st) * customWidth st)
        /\ canvas_height (render (images st) (gridSize st) (cellDimensions st) canvas)
          = 2 * (rows (gridSize st) * customHeight (customWidth st)))
  /\ (height (cellDimensions initialState) = 420
      /\ (style_width <$> drawCanvas initialState (Some newCanvas)) = Some "3000px"
      /\ (style_height <$> drawCanvas initialState (Some newCanvas)) = Some "2940px"
      /\ (canvas_width <$> drawCanvas initialState (Some newCanvas)) = Some 6000
      /\ (canvas_height <$> drawCanvas initialState (Some newCanvas)) = Some 5880).
Proof.
  assert (G : forall imgs g cd,
            style_width (render imgs g cd canvas) = px (cols g * width cd)
            /\ style_height (render imgs g cd canvas) = px (rows g * height cd)
            /\ canvas_width (render imgs g cd canvas) = 2 * (cols g * width cd)
            /\ canvas_height (render imgs g cd canvas) = 2 * (rows g * height cd)).
  { intros imgs' g' cd'.
    destruct (render_setup imgs' g' cd' canvas) as (W & H & SW & SH & _).
    rewrite W, H, SW, SH. simpl. repeat split; lia. }
  destruct (G imgs g cd) as (A & B & C & D).
  repeat split; try assumption.
  - apply (G (images st) (gridSize st) (cellDimensions st)).
  - apply (G (images st) (gridSize st) (cellDimensions st)).
Qed.

(** ** Re-rendering *)

Lemma render_blank (imgs : list ImageData) (g : GridSize) (cd : CellDimensions)
    (canvas : HTMLCanvasElement) :
  render imgs g cd canvas = render imgs g cd (blank (contextType canvas)).
Proof. reflexivity. Qed.

Lemma getContext_2d (canvas c : HTMLCanvasElement) :
  getContext canvas = Some c -> contextType c = Some "2d".
Proof.
  unfold getContext. destruct (contextType canvas) as [t|] eqn:E.
  - destruct (String.eqb_spec t "2d") as [->|_]; [|discriminate].
    intros [= <-]. exact E.
  - intros [= <-]. reflexivity.
Qed.

Lemma getContext_bound (c : HTMLCanvasElement) :
  contextType c = Some "2d" -> getContext c = Some c.
Proof. unfold getContext. intros ->. reflexivity. Qed.

(** C8: the rendered canvas is a function of the image list, the grid
    shape and the cell dimensions alone: nothing of the canvas's previous
    content enters it, and rendering again on the rendered canvas gives the
    same canvas, pixel for pixel.  A render is either carried out in full or
    not attempted (no canvas, or no 2d context). *)
Theorem drawCanvas_idempotent (st : AppState) (canvasRef : option HTMLCanvasElement) :
  drawCanvas st (drawCanvas st canvasRef) = drawCanvas st canvasRef
  /\ (forall canvas,
        render (images st) (gridSize st) (cellDimensions st) canvas
          = render (images st) (gridSize st) (cellDimensions st)
                   (blank (contextType canvas)))
  /\ (forall canvas,
        drawCanvas st (Some canvas)
          = match getContext canvas with
            | Some c => Some (render (images st) (gridSize st) (cellDimensions st) c)
            | None => Some canvas
            end)
  /\ drawCanvas st None = None.
Proof.
  split; [|split; [|split]]; try reflexivity.
  destruct canvasRef as [canvas|]; [|reflexivity].
  unfold drawCanvas.
  destruct (getContext canvas) as [c|] eqn:E.
  - pose proof (getContext_2d _ _ E) as T.
    destruct (render_setup (images st) (gridSize st) (cellDimensions st) c)
      as (_ & _ & _ & _ & CT & _).
    cbn [contextType cleared] in CT.
    rewrite (getContext_bound _ (eq_trans CT T)).
    rewrite (render_blank _ _ _ (render _ _ _ c)), CT.
    rewrite <- render_blank. reflexivity.
  - rewrite E. reflexivity.
Qed.

(** ** Positions *)

Lemma moveImage_nonNegative (imageId p : Z) (prev : list ImageData) :
  0 <= p -> nonNegative prev -> nonNegative (moveImage imageId p prev).
Proof.
  intros Hp H. unfold nonNegative, moveImage.
  apply Forall_fmap. eapply Forall_impl; [exact H|].
  intros e He. unfold compose. cbv beta in He.
  destruct (id e =? imageId); simpl; lia.
Qed.

Lemma step_nonNegative (st : AppState) (a : action) :
  nonNegative (images st) -> positionInputOk a -> nonNegative (images (step st a)).
Proof.
  intros H Ha. each_action a.
  - unfold handleImageUpload. destruct (startsWith _ _); [|exact H].
    unfold appendImage. apply Forall_app. split; [exact H|].
    repeat constructor. simpl. lia.
  - unfold handlePositionChange. apply moveImage_nonNegative; [|exact H].
    simpl in Ha. destruct (parseInt value) as [|n]; simpl; [lia|].
    destruct (Z.eqb_spec (n - 1) 0); lia.
  - unfold removeImage. apply Forall_forall. intros e He.
    apply list_elem_of_filter in He as [_ He].
    unfold nonNegative in H. rewrite Forall_forall in H. apply H, He.
  - constructor.
  - unfold autoArrange. apply Forall_lookup. intros i e He.
    rewrite list_lookup_imap in He.
    destruct (images st !! i); simpl in He; [|discriminate].
    injection He as <-. simpl. lia.
  - exact H.
  - exact H.
  - destruct (handleCustomWidthChange v); exact H.
Qed.

Lemma run_invariant (P : AppState -> Prop) (ok : action -> Prop) :
  (forall st a, P st -> ok a -> P (step st a)) ->
  forall l st, P st -> Forall ok l -> P (run st l).
Proof.
  intros Hstep l. induction l as [|a l IH]; intros st Hst Hl; simpl.
  - exact Hst.
  - inversion Hl; subst. apply IH; [apply Hstep|]; assumption.
Qed.

(** C2, as the program has it: the position field is 1-based; an input
    that parses to a safe integer [n] (at most 2^53 - 1 in absolute value,
    the range in which the arithmetic of the program is exact) stores
    [n - 1], and an input that is empty or not numeric stores 0.  The
    stored position is non-negative exactly when [n] is at least 1, so
    every operation keeps all positions non-negative integers as long as
    each numeral typed into a position field is between 1 and 2^53 - 1 (a
    numeral below 1 stores a negative position). *)
Theorem position_field_one_based :
  (forall imageId value prev n,
      parseInt value = Num n -> isSafeInteger n = true ->
      handlePositionChange imageId value prev = moveImage imageId (n - 1) prev)
  /\ (forall imageId value prev,
        parseInt value = NaN ->
        handlePositionChange imageId value prev = moveImage imageId 0 prev)
  /\ (forall value n,
        parseInt value = Num n -> isSafeInteger n = true ->
        (0 <= js_or (js_sub (parseInt value) 1) 0 <-> 1 <= n))
  /\ (forall st a,
        nonNegative (images st) -> positionInputOk a ->
        nonNegative (images (step st a)))
  /\ (forall l,
        Forall positionInputOk l -> nonNegative (images (run initialState l))).
Proof.
  split; [|split; [|split; [|split]]].
  - intros imageId value prev n E _. unfold handlePositionChange.
    rewrite E. simpl. destruct (Z.eqb_spec (n - 1) 0) as [->|_]; reflexivity.
  - intros imageId value prev E. unfold handlePositionChange.
    rewrite E. reflexivity.
  - intros value n E _. rewrite E. simpl.
    destruct (Z.eqb_spec (n - 1) 0); lia.
  - apply step_nonNegative.
  - intros l Hl.
    apply (run_invariant (fun st => nonNegative (images st)) positionInputOk);
      [apply step_nonNegative | constructor | exact Hl].
Qed.

Lemma position_field_one_based_3 :
  (parseInt "3" = Num 3 /\ isSafeInteger 3 = true)
  /\ handlePositionChange 1000 "3" (handleImageUpload 1000 0 (png "a") [])
       = moveImage 1000 2 (handleImageUpload 1000 0 (png "a") []).
Proof.
  split; [split; reflexivity|].
  exact (proj1 position_field_one_based 1000 "3"
           (handleImageUpload 1000 0 (png "a") []) 3 eq_refl eq_refl).
Defined.

(** A position field set to "0" stores the position -1. *)
Lemma position_field_zero_is_negative :
  Exists (fun e => position e < 0)
         (images (run initialState
                      [ImageLoaded 1000 0 (png "a"); PositionChange 1000 "0"])).
Proof. vm_compute. constructor. reflexivity. Qed.

(** ** Grid shape *)

Lemma js_or_1_nonzero (a : number) : js_or a 1 <> 0.
Proof.
  destruct a as [|n]; simpl; [lia|].
  destruct (Z.eqb_spec n 0); lia.
Qed.

Lemma step_gridShapeOk (st : AppState) (a : action) :
  gridShapeOk st -> gridInputOk a -> gridShapeOk (step st a).
Proof.
  unfold gridShapeOk. intros [Hr Hc] Ha.
  each_action a;
    try (split; assumption).
  - simpl in Ha. split; [|exact Hc].
    destruct (parseInt v) as [|n]; simpl; [lia|].
    destruct (Z.eqb_spec n 0); lia.
  - simpl in Ha. split; [exact Hr|].
    destruct (parseInt v) as [|n]; simpl; [lia|].
    destruct (Z.eqb_spec n 0); lia.
  - destruct (handleCustomWidthChange v); split; assumption.
Qed.

Lemma step_gridNonzero (st : AppState) (a : action) :
  rows (gridSize st) <> 0 /\ cols (gridSize st) <> 0 ->
  True ->
  rows (gridSize (step st a)) <> 0 /\ cols (gridSize (step st a)) <> 0.
Proof.
  intros [Hr Hc] _.
  each_action a;
    try (split; assumption).
  - split; [apply js_or_1_nonzero | exact Hc].
  - split; [exact Hr | apply js_or_1_nonzero].
  - destruct (handleCustomWidthChange v); split; assumption.
Qed.

(** C3, as the program has it: a rows or columns input that is not numeric,
    or that parses to 0, falls back to 1; any other numeral is stored as
    parsed and the other dimension is kept; no handler fails.  So rows and
    columns are never 0, and they stay at least 1 as long as no negative
    numeral is typed into either field. *)
Theorem grid_shape_fallback :
  (forall value g,
      parseInt value = NaN \/ parseInt value = Num 0 ->
      handleGridRowsChange value g = {| rows := 1; cols := cols g |}
      /\ handleGridColsChange value g = {| rows := rows g; cols := 1 |})
  /\ (forall value g n,
        parseInt value = Num n -> n <> 0 ->
        handleGridRowsChange value g = {| rows := n; cols := cols g |}
        /\ handleGridColsChange value g = {| rows := rows g; cols := n |})
  /\ (forall value g,
        (1 <= rows (handleGridRowsChange value g)
         <-> match parseInt value with NaN => True | Num n => 0 <= n end)
        /\ (1 <= cols (handleGridColsChange value g)
            <-> match parseInt value with NaN => True | Num n => 0 <= n end))
  /\ (forall st a, gridShapeOk st -> gridInputOk a -> gridShapeOk (step st a))
  /\ (forall l, Forall gridInputOk l -> gridShapeOk (run initialState l))
  /\ (forall l,
        rows (gridSize (run initialState l)) <> 0
        /\ cols (gridSize (run initialState l)) <> 0).
Proof.
  split; [|split; [|split; [|split; [|split]]]].
  - intros value g [E|E]; unfold handleGridRowsChange, handleGridColsChange;
      rewrite E; split; reflexivity.
  - intros value g n E Hn. unfold handleGridRowsChange, handleGridColsChange.
    rewrite E. simpl. apply Z.eqb_neq in Hn. rewrite Hn. split; reflexivity.
  - intros value g. unfold handleGridRowsChange, handleGridColsChange. simpl.
    destruct (parseInt value) as [|n]; simpl.
    + intuition lia.
    + destruct (Z.eqb_spec n 0); lia.
  - apply step_gridShapeOk.
  - intros l Hl.
    apply (run_invariant gridShapeOk gridInputOk);
      [apply step_gridShapeOk | unfold gridShapeOk; simpl; lia | exact Hl].
  - intros l.
    apply (run_invariant
             (fun st => rows (gridSize st) <> 0 /\ cols (gridSize st) <> 0)
             (fun _ => True));
      [apply step_gridNonzero | simpl; lia | ].
    apply Forall_forall. intros; exact I.
Qed.

Lemma grid_shape_fallback_abc :
  (parseInt "abc" = NaN \/ parseInt "abc" = Num 0)
  /\ handleGridRowsChange "abc" {| rows := 7; cols := 10 |}
       = {| rows := 1; cols := 10 |}.
Proof.
  split; [left; reflexivity|].
  exact (proj1 (proj1 grid_shape_fallback "abc" {| rows := 7; cols := 10 |}
                  (or_introl eq_refl))).
Defined.

(** A rows field set to "-3" leaves the grid with -3 rows. *)
Lemma grid_rows_negative :
  rows (gridSize (run initialState [GridRowsChange "-3"])) < 1.
Proof. vm_compute. reflexivity. Qed.

(** ** Identities *)

Lemma ids_removeImage (imageId : Z) (l : list ImageData) :
  id <$> removeImage imageId l = filter (fun i => i <> imageId) (id <$> l).
Proof.
  unfold removeImage. induction l as [|e l IH]; [reflexivity|].
  rewrite fmap_cons, !filter_cons.
  destruct (decide (id e <> imageId)); rewrite ?fmap_cons, IH; reflexivity.
Qed.

Lemma ids_step (st : AppState) (a : action) : ids (step st a) = idsAfter a (ids st).
Proof.
  unfold ids.
  each_action a.
  - unfold handleImageUpload, appendImage.
    destruct (startsWith _ _).
    + rewrite fmap_app. reflexivity.
    + rewrite app_nil_r. reflexivity.
  - unfold handlePositionChange, moveImage.
    rewrite <- list_fmap_compose. apply list_fmap_ext.
    intros i e _. simpl. destruct (id e =? imageId); reflexivity.
  - apply ids_removeImage.
  - reflexivity.
  - unfold autoArrange. rewrite fmap_imap.
    apply list_eq. intros i. rewrite list_lookup_imap, list_lookup_fmap.
    destruct (images st !! i); reflexivity.
  - reflexivity.
  - reflexivity.
  - destruct (handleCustomWidthChange v); reflexivity.
Qed.

Lemma step_NoDup (st : AppState) (a : action) :
  NoDup (ids st) -> freshId st a -> NoDup (ids (step st a)).
Proof.
  intros H Ha. rewrite ids_step.
  each_action a;
    try exact H.
  - simpl in Ha. destruct (startsWith _ _).
    + apply NoDup_app. split; [exact H|]. split; [|apply NoDup_singleton].
      intros x Hx Hx'. apply list_elem_of_singleton in Hx'. subst x. contradiction.
    + rewrite app_nil_r. exact H.
  - apply NoDup_filter, H.
  - constructor.
Qed.

Lemma run_NoDup (l : list action) :
  forall st, NoDup (ids st) -> freshRun st l -> NoDup (ids (run st l)).
Proof.
  induction l as [|a l IH]; intros st Hst Hl; simpl.
  - exact Hst.
  - destruct Hl as [Ha Hl]. apply IH; [apply step_NoDup|]; assumption.
Qed.

(** No operation changes the id of an entry (the ids in the list are kept
    in place by every operation, removal deletes some and an upload appends
    one, [Date.now() + index]); the ids stay pairwise distinct through
    every operation except an upload whose generated id is already in the
    list. *)
Lemma ids_stable :
  (forall st a, ids (step st a) = idsAfter a (ids st))
  /\ (forall st a, NoDup (ids st) -> freshId st a -> NoDup (ids (step st a)))
  /\ (forall l, freshRun initialState l -> NoDup (ids (run initialState l)))
  /\ (forall st imageId p i e,
        images st !! i = Some e ->
        id <$> (moveImage imageId p (images st) !! i) = Some (id e)
        /\ id <$> (autoArrange (images st) !! i) = Some (id e)).
Proof.
  split; [exact ids_step|]. split; [exact step_NoDup|].
  split; [intros l; apply run_NoDup; constructor|].
  intros st imageId p i e He. split.
  - unfold moveImage. rewrite list_lookup_fmap, He. simpl.
    destruct (id e =? imageId); reflexivity.
  - unfold autoArrange. rewrite list_lookup_imap, He. reflexivity.
Qed.

(** C9: the ids of the session list are not always pairwise distinct.  Two
    files of one selection, the second decoded a millisecond before the
    first, both get the id 1001 ([Date.now() + index] is 1000 + 1 and
    1001 + 0); the two entries are then told apart by no operation: one
    removal deletes both and one change of position moves both. *)
Theorem ids_collide :
  ids (run initialState
           [ImageLoaded 1000 1 (png "b"); ImageLoaded 1001 0 (png "a")])
    = [1001; 1001]
  /\ ~ NoDup (ids (run initialState
                       [ImageLoaded 1000 1 (png "b"); ImageLoaded 1001 0 (png "a")]))
  /\ images (run initialState
                 [ImageLoaded 1000 1 (png "b"); ImageLoaded 1001 0 (png "a");
                  RemoveImage 1001])
       = []
  /\ position <$> images (run initialState
                 [ImageLoaded 1000 1 (png "b"); ImageLoaded 1001 0 (png "a");
                  PositionChange 1001 "5"])
       = [4; 4].
Proof.
  split; [reflexivity|]. split; [|split; reflexivity].
  vm_compute. intros H. apply NoDup_cons in H as [H _].
  apply H. constructor.
Qed.


(** * Further properties of the component *)

(** ** Numerals in the input fields *)

Lemma append_cons (c : ascii) (a b : string) :
  String c a +:+ b = String c (a +:+ b).
Proof. reflexivity. Qed.

Lemma append_empty_l (s : string) : "" +:+ s = s.
Proof. reflexivity. Qed.

Lemma append_empty_r (s : string) : s +:+ "" = s.
Proof.
  induction s as [|c s IH]; [reflexivity|].
  rewrite append_cons, IH. reflexivity.
Qed.

Lemma append_assoc (a b c : string) : (a +:+ b) +:+ c = a +:+ (b +:+ c).
Proof.
  induction a as [|x a IH]; [reflexivity|].
  rewrite !append_cons, IH. reflexivity.
Qed.

Lemma allDigits_app (a b : string) :
  allDigits (a +:+ b) = allDigits a && allDigits b.
Proof.
  induction a as [|c a IH]; [reflexivity|].
  rewrite append_cons. cbn [allDigits]. rewrite IH, andb_assoc. reflexivity.
Qed.

Lemma decimalValue_app (a b : string) :
  forall acc, decimalValue acc (a +:+ b) = decimalValue (decimalValue acc a) b.
Proof.
  induction a as [|c a IH]; intros acc; [reflexivity|].
  rewrite append_cons. cbn [decimalValue]. apply IH.
Qed.

Lemma pretty_N_char_digit (x : N) :
  (x < 10)%N ->
  isDecimalDigit (pretty_N_char x) = true
  /\ code (pretty_N_char x) - 48 = Z.of_N x.
Proof.
  intros Hx.
  assert (x = 0 \/ x = 1 \/ x = 2 \/ x = 3 \/ x = 4 \/ x = 5
          \/ x = 6 \/ x = 7 \/ x = 8 \/ x = 9)%N as H by lia.
  repeat (destruct H as [->|H]); try subst x; split; reflexivity.
Qed.

(** The digits [pretty_N_go] puts in front of its accumulator. *)
Lemma pretty_N_go_digits (x : N) :
  forall s, exists ds,
    pretty_N_go x s = ds +:+ s
    /\ allDigits ds = true
    /\ decimalValue 0 ds = Z.of_N x
    /\ ((0 < x)%N -> ds <> "").
Proof.
  induction (N.lt_wf_0 x) as [x _ IH]. intros s.
  destruct (N.eq_dec x 0%N) as [->|Hx].
  - exists "". rewrite pretty_N_go_0. repeat split; try reflexivity. lia.
  - assert (0 < x)%N as Hpos by lia.
    rewrite pretty_N_go_step by exact Hpos.
    destruct (IH (x `div` 10)%N (N.div_lt x 10%N Hpos eq_refl)
                 (String (pretty_N_char (x `mod` 10)) s)) as (ds & E & D & V & _).
    destruct (pretty_N_char_digit (x `mod` 10)%N) as [Hd Hv].
    { apply N.mod_lt. lia. }
    exists (ds +:+ String (pretty_N_char (x `mod` 10)) "").
    rewrite E, append_assoc, append_cons, append_empty_l.
    split; [reflexivity|]. split; [|split].
    + rewrite allDigits_app, D. cbn [allDigits]. rewrite Hd. reflexivity.
    + rewrite decimalValue_app, V. cbn [decimalValue]. rewrite Hv.
      pose proof (N.div_mod x 10%N ltac:(lia)). lia.
    + intros _. destruct ds; discriminate.
Qed.

(** The numeral of an integer: an optional minus sign and the digits of
    its absolute value. *)
Lemma pretty_Z_digits (n : Z) :
  exists ds,
    ds <> ""
    /\ allDigits ds = true
    /\ decimalValue 0 ds = Z.abs n
    /\ pretty n = (if n <? 0 then String "-" ds else ds).
Proof.
  destruct n as [|x|x].
  - exists "0". repeat split; try reflexivity. discriminate.
  - destruct (pretty_N_go_digits (Npos x) "") as (ds & E & D & V & N0).
    exists ds. rewrite append_empty_r in E.
    split; [apply N0; lia|]. split; [exact D|]. split; [exact V|].
    exact E.
  - destruct (pretty_N_go_digits (Npos x) "") as (ds & E & D & V & N0).
    exists ds. rewrite append_empty_r in E.
    split; [apply N0; lia|]. split; [exact D|]. split; [exact V|].
    change (pretty (Z.neg x)) with ("-" +:+ pretty_N_go (Npos x) "").
    rewrite E. reflexivity.
Qed.

Lemma digitValue_decimal (c : ascii) :
  isDecimalDigit c = true -> digitValue c = Some (code c - 48).
Proof. unfold isDecimalDigit, digitValue. intros ->. reflexivity. Qed.

Lemma digitValue_not_decimal (c : ascii) (d : Z) :
  isDecimalDigit c = false -> digitValue c = Some d -> 10 <= d.
Proof.
  unfold isDecimalDigit, digitValue. intros ->.
  destruct ((97 <=? code c) && (code c <=? 122)) eqn:E1.
  - intros [= <-]. apply andb_prop in E1 as [E _]. apply Z.leb_le in E. lia.
  - destruct ((65 <=? code c) && (code c <=? 90)) eqn:E2; [|discriminate].
    intros [= <-]. apply andb_prop in E2 as [E _]. apply Z.leb_le in E. lia.
Qed.

Lemma parseDigits_decimal (ds rest : string) :
  allDigits ds = true ->
  forall acc,
    parseDigits 10 (ds +:+ rest) acc
      = parseDigits 10 rest
          (match ds with
           | EmptyString => acc
           | _ => Some (decimalValue (default 0 acc) ds)
           end).
Proof.
  induction ds as [|c r IH]; intros D acc; [reflexivity|].
  cbn [allDigits] in D. apply andb_prop in D as [Dc Dr].
  rewrite append_cons. cbn [parseDigits]. rewrite (digitValue_decimal c Dc).
  assert ((code c - 48 <? 10) = true) as ->.
  { unfold isDecimalDigit in Dc. apply andb_prop in Dc as [_ H].
    apply Z.leb_le in H. apply Z.ltb_lt. lia. }
  rewrite (IH Dr). destruct r; reflexivity.
Qed.

Lemma parseDigits_end (rest : string) (acc : option Z) :
  endsNumeral rest = true -> parseDigits 10 rest acc = acc.
Proof.
  destruct rest as [|c r]; [reflexivity|]. simpl.
  intros H. apply andb_prop in H as [H _]. apply andb_prop in H as [H _].
  apply negb_true_iff in H.
  destruct (digitValue c) as [d|] eqn:E; [|reflexivity].
  pose proof (digitValue_not_decimal c d H E).
  destruct (Z.ltb_spec d 10); [lia | reflexivity].
Qed.

Lemma trimStart_digit (c : ascii) (r : string) :
  isDecimalDigit c = true -> trimStart (String c r) = String c r.
Proof.
  unfold isDecimalDigit. intros H. apply andb_prop in H as [H1 H2].
  apply Z.leb_le in H1. apply Z.leb_le in H2.
  simpl. unfold isWhiteSpace.
  destruct (Z.leb_spec (code c) 13); [lia|].
  destruct (Z.eqb_spec (code c) 32); [lia|].
  rewrite andb_false_r. reflexivity.
Qed.

Lemma stripSign_digit (c : ascii) (r : string) :
  isDecimalDigit c = true -> stripSign (String c r) = (1, String c r).
Proof.
  unfold isDecimalDigit. intros H. apply andb_prop in H as [H1 H2].
  apply Z.leb_le in H1. apply Z.leb_le in H2.
  unfold stripSign.
  destruct (Z.eqb_spec (code c) 45); [lia|].
  destruct (Z.eqb_spec (code c) 43); [lia|]. reflexivity.
Qed.

Lemma stripPrefix_decimal (ds rest : string) :
  ds <> "" -> allDigits ds = true -> endsNumeral rest = true ->
  stripPrefix (ds +:+ rest) = (10, ds +:+ rest).
Proof.
  intros N0 D R. destruct ds as [|c0 ds]; [contradiction|].
  simpl in D. apply andb_prop in D as [_ D].
  assert (forall c1 r, ds +:+ rest = String c1 r ->
            (code c1 =? 120) || (code c1 =? 88) = false) as Hx.
  { intros c1 r E. destruct ds as [|c ds].
    - rewrite append_empty_l in E. subst rest. simpl in R.
      apply andb_prop in R as [R R2]. apply andb_prop in R as [_ R1].
      apply negb_true_iff in R1, R2. rewrite R1, R2. reflexivity.
    - rewrite append_cons in E. injection E as <- _. simpl in D. apply andb_prop in D as [Dc _].
      unfold isDecimalDigit in Dc. apply andb_prop in Dc as [_ H].
      apply Z.leb_le in H.
      destruct (Z.eqb_spec (code c) 120); [lia|].
      destruct (Z.eqb_spec (code c) 88); [lia|]. reflexivity. }
  rewrite append_cons. unfold stripPrefix.
  destruct (ds +:+ rest) as [|c1 r] eqn:E; [reflexivity|].
  rewrite (Hx c1 r eq_refl), andb_false_r. reflexivity.
Qed.

Lemma parseInt_signed (s : string) (sign : Z) (ds rest : string) :
  stripSign (trimStart s) = (sign, ds +:+ rest) ->
  ds <> "" -> allDigits ds = true -> endsNumeral rest = true ->
  parseInt s = Num (sign * decimalValue 0 ds).
Proof.
  intros S N0 D R. unfold parseInt.
  rewrite S, (stripPrefix_decimal ds rest N0 D R).
  rewrite (parseDigits_decimal ds rest D None).
  destruct ds as [|c ds]; [contradiction|].
  rewrite parseDigits_end by exact R. reflexivity.
Qed.

(** [parseInt] reads the numeral of an integer back, whatever follows it. *)
Lemma parseInt_numeral (n : Z) (rest : string) :
  endsNumeral rest = true -> parseInt (pretty n +:+ rest) = Num n.
Proof.
  intros R. destruct (pretty_Z_digits n) as (ds & N0 & D & V & E).
  rewrite E. destruct (Z.ltb_spec n 0) as [Hn|Hn].
  - rewrite (parseInt_signed _ (-1) ds rest); [f_equal; lia | | assumption..].
    rewrite append_cons. reflexivity.
  - rewrite (parseInt_signed _ 1 ds rest); [f_equal; lia | | assumption..].
    destruct ds as [|c ds]; [contradiction|].
    cbn [allDigits] in D. apply andb_prop in D as [Dc _].
    rewrite append_cons, (trimStart_digit c _ Dc). apply stripSign_digit, Dc.
Qed.

(** X1: each numeric handler reads the decimal numeral of a safe integer
    (at most 2^53 - 1 in absolute value) back exactly, and reads only the
    integer part of such a numeral followed by a fraction (so a fraction is
    cut off towards zero). *)
Theorem numeral_read_back (n : Z) (frac : string) :
  isSafeInteger n = true ->
  parseInt (pretty n) = Num n
  /\ parseInt (pretty n +:+ "." +:+ frac) = Num n
  /\ handleCustomWidthChange (pretty n) = Some n
  /\ handleCustomWidthChange (pretty n +:+ "." +:+ frac) = Some n
  /\ (forall g, handleGridRowsChange (pretty n +:+ "." +:+ frac) g
                 = handleGridRowsChange (pretty n) g)
  /\ (forall g, handleGridColsChange (pretty n +:+ "." +:+ frac) g
                 = handleGridColsChange (pretty n) g)
  /\ (forall imageId prev,
        handlePositionChange imageId (pretty n +:+ "." +:+ frac) prev
          = moveImage imageId (n - 1) prev).
Proof.
  intros _.
  assert (E0 : parseInt (pretty n) = Num n).
  { rewrite <- (append_empty_r (pretty n)). apply parseInt_numeral. reflexivity. }
  assert (E1 : parseInt (pretty n +:+ "." +:+ frac) = Num n).
  { apply parseInt_numeral. reflexivity. }
  unfold handleCustomWidthChange, handleGridRowsChange, handleGridColsChange,
    handlePositionChange.
  rewrite E0, E1. repeat split; try reflexivity.
  intros imageId prev. simpl. destruct (Z.eqb_spec (n - 1) 0) as [->|_]; reflexivity.
Qed.

Lemma numeral_read_back_42 :
  isSafeInteger 42 = true /\ parseInt "42.5" = Num 42.
Proof.
  split; [reflexivity|].
  exact (proj1 (proj2 (numeral_read_back 42 "5" eq_refl))).
Defined.

(** ** Repositioning and removal *)

Lemma setPosition_same (img : ImageData) : setPosition img (position img) = img.
Proof. destruct img. reflexivity. Qed.

Lemma same_id_same_entry (l : list ImageData) (e e' : ImageData) :
  NoDup (id <$> l) -> e ∈ l -> e' ∈ l -> id e = id e' -> e = e'.
Proof.
  intros ND He He' E.
  apply list_elem_of_lookup in He as [i Hi].
  apply list_elem_of_lookup in He' as [j Hj].
  assert ((id <$> l) !! i = Some (id e)) as Hi' by (rewrite list_lookup_fmap, Hi; reflexivity).
  assert ((id <$> l) !! j = Some (id e)) as Hj' by (rewrite list_lookup_fmap, Hj, E; reflexivity).
  pose proof (NoDup_lookup _ _ _ _ ND Hi' Hj') as ->. congruence.
Qed.

(** X2: with pairwise distinct ids, typing back into an entry's position
    field the value the field displays leaves the list unchanged, for an
    entry whose position and displayed value are safe integers (the
    displayed value is then the decimal numeral of the position plus 1). *)
Theorem position_field_round_trip (prev : list ImageData) (e : ImageData) (s : string) :
  positionFieldValue e = Some s ->
  NoDup (id <$> prev) -> e ∈ prev ->
  handlePositionChange (id e) s prev = prev.
Proof.
  intros Hs ND He. unfold handlePositionChange.
  unfold positionFieldValue, numberToString in Hs.
  destruct (isSafeInteger (position e)); [|discriminate].
  destruct (isSafeInteger (position e + 1)); [|discriminate].
  injection Hs as <-.
  rewrite <- (append_empty_r (pretty _)), parseInt_numeral by reflexivity.
  assert (js_or (js_sub (Num (position e + 1)) 1) 0 = position e) as ->.
  { simpl. destruct (Z.eqb_spec (position e + 1 - 1) 0); lia. }
  unfold moveImage. rewrite <- (list_fmap_id prev) at 2.
  apply list_fmap_ext. intros i img Hi. simpl.
  destruct (Z.eqb_spec (id img) (id e)) as [E|_]; [|reflexivity].
  assert (img = e) as ->.
  { apply (same_id_same_entry prev); [assumption | | assumption..].
    apply list_elem_of_lookup. eauto. }
  apply setPosition_same.
Qed.

Lemma position_field_round_trip_one_card :
  (positionFieldValue (card 3 "a") = Some "4"
   /\ NoDup (id <$> [card 3 "a"]) /\ card 3 "a" ∈ [card 3 "a"])
  /\ handlePositionChange 0 "4" [card 3 "a"] = [card 3 "a"].
Proof.
  assert (V : positionFieldValue (card 3 "a") = Some "4") by reflexivity.
  assert (ND : NoDup (id <$> [card 3 "a"])) by apply NoDup_singleton.
  assert (IN : card 3 "a" ∈ [card 3 "a"]) by constructor.
  split; [repeat split; assumption|].
  exact (position_field_round_trip [card 3 "a"] (card 3 "a") "4" V ND IN).
Defined.

(** X3: repositioning composes as an assignment: a second move of the same
    id overrides the first, moves of different ids commute, and a move of
    an id that is not in the list changes nothing. *)
Theorem moveImage_compose (i j p q : Z) (l : list ImageData) :
  moveImage i q (moveImage i p l) = moveImage i q l
  /\ (i <> j -> moveImage i p (moveImage j q l) = moveImage j q (moveImage i p l))
  /\ (i ∉ (id <$> l) -> moveImage i p l = l).
Proof.
  unfold moveImage. split; [|split].
  - rewrite <- list_fmap_compose. apply list_fmap_ext. intros k e _. simpl.
    destruct (Z.eqb_spec (id e) i) as [E|E]; simpl.
    + apply Z.eqb_eq in E. rewrite E. reflexivity.
    + apply Z.eqb_neq in E. rewrite E. reflexivity.
  - intros Hij. rewrite <- !list_fmap_compose. apply list_fmap_ext.
    intros k e _. simpl.
    destruct (Z.eqb_spec (id e) i) as [Ei|Ei], (Z.eqb_spec (id e) j) as [Ej|Ej];
      simpl; try lia;
      repeat match goal with
             | H : id e = _ |- _ => apply Z.eqb_eq in H; rewrite H
             | H : id e <> _ |- _ => apply Z.eqb_neq in H; rewrite H
             end; reflexivity.
  - intros Hi. rewrite <- (list_fmap_id l) at 2. apply list_fmap_ext.
    intros k e He. simpl.
    destruct (Z.eqb_spec (id e) i) as [E|_]; [|reflexivity].
    exfalso. apply Hi. rewrite <- E. apply list_elem_of_fmap_2.
    apply list_elem_of_lookup. eauto.
Qed.

Lemma moveImage_compose_two_cards :
  (7 ∉ (id <$> [card 0 "a"; card 1 "b"]))
  /\ moveImage 7 5 [card 0 "a"; card 1 "b"] = [card 0 "a"; card 1 "b"].
Proof.
  assert (H : 7 ∉ (id <$> [card 0 "a"; card 1 "b"])).
  { intros H. vm_compute in H.
    apply elem_of_cons in H as [H|H]; [discriminate|].
    apply list_elem_of_singleton in H. discriminate. }
  split; [exact H|].
  exact (proj2 (proj2 (moveImage_compose 7 0 5 0 [card 0 "a"; card 1 "b"])) H).
Defined.

Lemma filter_all {A} (P : A -> Prop) `{forall x, Decision (P x)} (l : list A) :
  Forall P l -> filter P l = l.
Proof.
  induction 1 as [|x l Hx _ IH]; [reflexivity|].
  rewrite filter_cons_True by exact Hx. rewrite IH. reflexivity.
Qed.

(** X4: removal deletes every entry with the given id and nothing else,
    keeping the others as they are and in order; it is idempotent, removals
    commute, removing an id that is not in the list changes nothing, and a
    reposition of the removed id before or after the removal has no
    effect. *)
Theorem removeImage_compose (i j p : Z) (l : list ImageData) :
  (forall e, e ∈ removeImage i l <-> e ∈ l /\ id e <> i)
  /\ removeImage i l `sublist_of` l
  /\ removeImage i (removeImage i l) = removeImage i l
  /\ removeImage i (removeImage j l) = removeImage j (removeImage i l)
  /\ (i ∉ (id <$> l) -> removeImage i l = l)
  /\ removeImage i (moveImage i p l) = removeImage i l
  /\ moveImage i p (removeImage i l) = removeImage i l.
Proof.
  unfold removeImage. split; [|split; [|split; [|split; [|split; [|split]]]]].
  - intros e. rewrite list_elem_of_filter. tauto.
  - apply sublist_filter.
  - apply filter_all. apply Forall_forall. intros e He.
    apply list_elem_of_filter in He. tauto.
  - rewrite !list_filter_filter. apply list_filter_iff. tauto.
  - intros Hi. apply filter_all. apply Forall_forall. intros e He E.
    apply Hi. rewrite <- E. apply list_elem_of_fmap_2, He.
  - unfold moveImage. induction l as [|e l IH]; [reflexivity|].
    rewrite fmap_cons, !filter_cons.
    destruct (Z.eqb_spec (id e) i) as [E|E].
    + cbn [id setPosition]. destruct (decide (id e <> i)); [contradiction|].
      exact IH.
    + destruct (decide (id e <> i)); [|contradiction]. rewrite IH. reflexivity.
  - unfold moveImage. rewrite <- (list_fmap_id (filter _ l)) at 2.
    apply list_fmap_ext. intros k e He. simpl.
    destruct (Z.eqb_spec (id e) i) as [E|_]; [|reflexivity].
    apply list_elem_of_lookup_2, list_elem_of_filter in He. tauto.
Qed.

Lemma removeImage_compose_two_cards :
  (7 ∉ (id <$> [card 0 "a"; card 1 "b"]))
  /\ removeImage 7 [card 0 "a"; card 1 "b"] = [card 0 "a"; card 1 "b"].
Proof.
  assert (H : 7 ∉ (id <$> [card 0 "a"; card 1 "b"])).
  { intros H. vm_compute in H.
    apply elem_of_cons in H as [H|H]; [discriminate|].
    apply list_elem_of_singleton in H. discriminate. }
  split; [exact H|].
  exact (proj1 (proj2 (proj2 (proj2 (proj2
           (removeImage_compose 7 0 0 [card 0 "a"; card 1 "b"]))))) H).
Defined.

(** With pairwise distinct ids a removal deletes the one entry that has
    the id. *)
Lemma removeImage_delete (prev : list ImageData) :
  forall (i : nat) (e : ImageData),
    NoDup (id <$> prev) -> prev !! i = Some e ->
    removeImage (id e) prev = delete i prev.
Proof.
  unfold removeImage.
  induction prev as [|x l IH]; intros i e ND Hi; [discriminate|].
  rewrite fmap_cons in ND. apply NoDup_cons in ND as [Hx ND].
  rewrite filter_cons. destruct i as [|i]; simpl in Hi.
  - injection Hi as ->. destruct (decide (id e <> id e)); [contradiction|].
    simpl. apply filter_all. apply Forall_forall. intros y Hy E.
    apply Hx. rewrite <- E. apply list_elem_of_fmap_2, Hy.
  - destruct (decide (id x <> id e)) as [_|E].
    + simpl. f_equal. apply IH; assumption.
    + exfalso. apply Hx. apply dec_stable in E. rewrite E.
      apply list_elem_of_fmap_2. apply list_elem_of_lookup. eauto.
Qed.

(** ** Positions equal to list indices *)

Lemma positionsSequential_lookup (l : list ImageData) (i : nat) (e : ImageData) :
  positionsSequential l -> l !! i = Some e -> position e = Z.of_nat i.
Proof.
  unfold positionsSequential. intros H Hi.
  assert ((position <$> l) !! i = Some (position e)) as E
    by (rewrite list_lookup_fmap, Hi; reflexivity).
  rewrite H, list_lookup_fmap in E.
  rewrite (lookup_seq_lt _ _ _ (lookup_lt_Some _ _ _ Hi)) in E.
  simpl in E. congruence.
Qed.

Lemma autoArrange_sequential (l : list ImageData) :
  positionsSequential (autoArrange l).
Proof.
  unfold positionsSequential, autoArrange. rewrite length_imap.
  apply list_eq. intros i.
  rewrite !list_lookup_fmap, list_lookup_imap.
  destruct (l !! i) as [e|] eqn:He; simpl.
  - rewrite (lookup_seq_lt _ _ _ (lookup_lt_Some _ _ _ He)). reflexivity.
  - rewrite lookup_seq_ge; [reflexivity|].
    apply lookup_ge_None in He. lia.
Qed.

Lemma upload_sequential (now index : Z) (file : File) (prev : list ImageData) :
  positionsSequential prev ->
  positionsSequential (handleImageUpload now index file prev).
Proof.
  intros H. unfold handleImageUpload.
  destruct (startsWith _ _); [|exact H].
  unfold positionsSequential, appendImage in *.
  rewrite fmap_app, length_app, H. simpl.
  rewrite Nat.add_1_r, seq_S, fmap_app. reflexivity.
Qed.

Lemma autoArrange_of_sequential (k : list ImageData) :
  positionsSequential k -> autoArrange k = k.
Proof.
  intros Hk. apply list_eq. intros i. unfold autoArrange.
  rewrite list_lookup_imap. destruct (k !! i) as [e|] eqn:He; [|reflexivity].
  simpl. rewrite <- (positionsSequential_lookup k i e Hk He).
  rewrite setPosition_same. reflexivity.
Qed.

(** X5: auto-arrange leaves a list unchanged exactly when every entry
    already sits at the position equal to its index; it is idempotent and
    it discards any earlier reposition. *)
Theorem autoArrange_fixpoint (l : list ImageData) :
  (autoArrange l = l <-> positionsSequential l)
  /\ autoArrange (autoArrange l) = autoArrange l
  /\ (forall imageId p, autoArrange (moveImage imageId p l) = autoArrange l)
  /\ (forall imageId value,
        autoArrange (handlePositionChange imageId value l) = autoArrange l).
Proof.
  pose proof autoArrange_of_sequential as Fix.
  assert (Absorb : forall imageId p, autoArrange (moveImage imageId p l) = autoArrange l).
  { intros imageId p. unfold autoArrange, moveImage. rewrite imap_fmap.
    apply imap_ext. intros i e _. simpl.
    destruct (id e =? imageId); reflexivity. }
  split; [|split; [|split]].
  - split; [|apply Fix].
    intros E. rewrite <- E. apply autoArrange_sequential.
  - apply Fix, autoArrange_sequential.
  - exact Absorb.
  - intros imageId value. apply Absorb.
Qed.

(** X6: uploads keep positions equal to indices: starting from the empty
    list (or from any list whose positions equal the indices), any run of
    completed uploads gives such a list again; it holds the old entries
    first, then one entry per file of an image type, and files of other
    types add nothing. *)
Theorem uploads_sequential (fs : list (Z * Z * File)) (prev : list ImageData) :
  positionsSequential prev ->
  positionsSequential (uploads fs prev)
  /\ autoArrange (uploads fs prev) = uploads fs prev
  /\ prev `prefix_of` uploads fs prev
  /\ length (uploads fs prev)
       = (length prev + length (filter (fun f => accepted f = true) fs))%nat.
Proof.
  revert prev. unfold uploads.
  induction fs as [|f fs IH]; intros prev H; simpl.
  - split; [exact H|]. split; [apply autoArrange_of_sequential, H|].
    split; [reflexivity|]. lia.
  - destruct (IH (handleImageUpload f.1.1 f.1.2 f.2 prev)
                 (upload_sequential _ _ _ _ H)) as (HS & A & P & L).
    split; [exact HS|]. split; [exact A|]. split.
    + etransitivity; [|exact P]. unfold handleImageUpload.
      destruct (startsWith _ _); [|reflexivity].
      apply prefix_app_r. reflexivity.
    + rewrite L, filter_cons. unfold handleImageUpload, accepted.
      destruct (startsWith (file_type f.2) "image/"); simpl.
      * unfold appendImage. rewrite length_app. simpl. lia.
      * lia.
Qed.

Lemma uploads_sequential_three_files :
  positionsSequential []
  /\ position <$> uploads [(1000, 0, png "a");
                           (1000, 1, {| file_name := "notes.txt";
                                        file_type := "text/plain";
                                        file_data := "" |});
                           (1001, 2, png "c")] []
       = [0; 1].
Proof.
  assert (H : positionsSequential []) by reflexivity.
  split; [exact H|].
  exact (proj1 (uploads_sequential
                  [(1000, 0, png "a");
                   (1000, 1, {| file_name := "notes.txt";
                                file_type := "text/plain";
                                file_data := "" |});
                   (1001, 2, png "c")] [] H)).
Defined.

(** X7: removing an entry other than the last from a list whose positions
    equal the indices, and then uploading an image, gives two entries the
    same position: the old last entry keeps position [length - 1], and the
    new entry is given [prev.length] of the shortened list, which is that
    same number. *)
Theorem upload_after_removal_collides (prev : list ImageData) (i : nat)
    (e : ImageData) (now index : Z) (file : File) :
  positionsSequential prev -> NoDup (id <$> prev) ->
  prev !! i = Some e -> (S i < length prev)%nat ->
  startsWith (file_type file) "image/" = true ->
  exists old new,
    last prev = Some old
    /\ handleImageUpload now index file (removeImage (id e) prev)
         !! (length prev - 2)%nat = Some old
    /\ handleImageUpload now index file (removeImage (id e) prev)
         !! (length prev - 1)%nat = Some new
    /\ position old = Z.of_nat (length prev) - 1
    /\ position new = Z.of_nat (length prev) - 1
    /\ image new = {| img_src := file_data file |}.
Proof.
  intros HS ND Hi Hlen Hf.
  rewrite (removeImage_delete prev i e ND Hi).
  unfold handleImageUpload. rewrite Hf. unfold appendImage.
  assert (Hd : length (delete i prev) = (length prev - 1)%nat).
  { rewrite length_delete by eauto. lia. }
  destruct (prev !! (length prev - 1)%nat) as [old|] eqn:Hold.
  2:{ apply lookup_ge_None in Hold. lia. }
  eexists old, _. split; [|split; [|split; [|split; [|split]]]].
  - rewrite last_lookup. replace (pred (length prev)) with (length prev - 1)%nat by lia.
    exact Hold.
  - rewrite lookup_app_l by lia.
    rewrite list_lookup_delete_ge by lia.
    replace (S (length prev - 2)) with (length prev - 1)%nat by lia. exact Hold.
  - rewrite <- Hd. apply list_lookup_middle. reflexivity.
  - rewrite (positionsSequential_lookup prev _ old HS Hold). lia.
  - simpl. rewrite Hd. lia.
  - reflexivity.
Qed.

Lemma upload_after_removal_collides_three_cards :
  exists old new,
    last (autoArrange [card 9 "a"; {| id := 1; src := "b"; image := {| img_src := "b" |};
                                      name := "b"; position := 9 |};
                       {| id := 2; src := "c"; image := {| img_src := "c" |};
                          name := "c"; position := 9 |}]) = Some old
    /\ position old = 2 /\ position new = 2
    /\ image new = {| img_src := "d" |}.
Proof.
  pose (l := autoArrange [card 9 "a"; {| id := 1; src := "b"; image := {| img_src := "b" |};
                                         name := "b"; position := 9 |};
                          {| id := 2; src := "c"; image := {| img_src := "c" |};
                             name := "c"; position := 9 |}]).
  assert (ND : NoDup (id <$> l)).
  { vm_compute. repeat (apply NoDup_cons; split;
      [intros H; repeat (apply elem_of_cons in H as [H|H]; [discriminate|]);
       inversion H|]). constructor. }
  destruct (upload_after_removal_collides l 0 (card 0 "a") 1000 0 (png "d")
              (autoArrange_sequential _) ND eq_refl ltac:(simpl; lia) eq_refl)
    as (old & new & H1 & _ & _ & H2 & H3 & H4).
  exists old, new. repeat split; assumption.
Defined.

(** ** Capacity of the grid *)

Lemma inGrid_range (g : GridSize) (p : Z) :
  1 <= rows g -> 1 <= cols g -> (inGrid g p <-> 0 <= p < rows g * cols g).
Proof.
  intros Hr Hc. unfold inGrid.
  pose proof (Z.div_mod p (cols g) ltac:(lia)) as E.
  pose proof (Z.mod_pos_bound p (cols g) ltac:(lia)) as B.
  split.
  - intros [[H0 H1] _]. nia.
  - intros [H0 H1]. split; [|lia]. split; nia.
Qed.

(** X8: a grid with at least one row and one column shows exactly the
    positions from 0 to [rows * cols - 1]: these are the positions whose
    field displays a number from 1 to the field's [max]; the renderer's own
    test lets every position below [rows * cols] through, the negative ones
    included. *)
Theorem grid_capacity (g : GridSize) (e : ImageData) :
  1 <= rows g -> 1 <= cols g ->
  (inGrid g (position e) <-> 0 <= position e < rows g * cols g)
  /\ (inGrid g (position e) <-> 1 <= position e + 1 <= positionFieldMax g)
  /\ ((position e / cols g <? rows g) && (Z.rem (position e) (cols g) <? cols g) = true
      <-> position e < rows g * cols g).
Proof.
  intros Hr Hc. pose proof (inGrid_range g (position e) Hr Hc) as R.
  split; [exact R|]. split.
  - rewrite R. unfold positionFieldMax. lia.
  - destruct (Z.lt_ge_cases (position e) 0) as [Hneg|Hpos].
    + pose proof (row_of_negative _ (cols g) ltac:(lia) Hneg).
      pose proof (Z.rem_bound_pos_neg (position e) (cols g) ltac:(lia) ltac:(lia)).
      rewrite andb_true_iff, !Z.ltb_lt. nia.
    + rewrite (inGrid_test g _ Hc Hpos), R. lia.
Qed.

Lemma grid_capacity_position_70 :
  (1 <= 7 /\ 1 <= 10)
  /\ ~ inGrid {| rows := 7; cols := 10 |} (position (card 70 "a")).
Proof.
  split; [lia|].
  intros H.
  apply (proj1 (grid_capacity {| rows := 7; cols := 10 |} (card 70 "a")
                  ltac:(simpl; lia) ltac:(simpl; lia))) in H.
  simpl in H. lia.
Defined.

(** ** The pixels of the composite *)

Lemma lastAt_Some (p : Z) (l : list ImageData) (e : ImageData) :
  lastAt p l = Some e -> e ∈ l /\ position e = p.
Proof.
  induction l as [|x l IH]; simpl; [discriminate|].
  destruct (lastAt p l) as [e'|].
  - intros [= <-]. destruct (IH eq_refl). split; [right|]; assumption.
  - destruct (Z.eqb_spec (position x) p); [|discriminate].
    intros [= <-]. split; [left | assumption].
Qed.

Lemma lastAt_None (p : Z) (l : list ImageData) :
  lastAt p l = None <-> forall e, e ∈ l -> position e <> p.
Proof.
  induction l as [|x l IH]; simpl.
  - split; [|reflexivity]. intros _ e He. inversion He.
  - destruct (lastAt p l) as [e'|] eqn:E.
    + split; [discriminate|]. intros H. exfalso.
      destruct (lastAt_Some p l e' E) as [He' Hp].
      apply (H e'); [right; exact He' | exact Hp].
    + destruct (Z.eqb_spec (position x) p) as [Hx|Hx].
      * split; [discriminate|]. intros H. exfalso. apply (H x); [left | exact Hx].
      * split; [|reflexivity]. intros _ e He.
        apply elem_of_cons in He as [->|He]; [exact Hx|].
        apply (proj1 IH eq_refl), He.
Qed.

Lemma lastAt_unique (l : list ImageData) (e : ImageData) :
  NoDup (position <$> l) -> e ∈ l -> lastAt (position e) l = Some e.
Proof.
  intros ND He. destruct (lastAt (position e) l) as [e'|] eqn:E.
  - destruct (lastAt_Some _ _ _ E) as [He' Hp].
    apply list_elem_of_lookup in He as [i Hi].
    apply list_elem_of_lookup in He' as [j Hj].
    assert ((position <$> l) !! i = Some (position e)) as Hi'
      by (rewrite list_lookup_fmap, Hi; reflexivity).
    assert ((position <$> l) !! j = Some (position e)) as Hj'
      by (rewrite list_lookup_fmap, Hj; simpl; rewrite Hp; reflexivity).
    pose proof (NoDup_lookup _ _ _ _ ND Hi' Hj') as ->. congruence.
  - exfalso. apply (proj1 (lastAt_None _ _) E e He). reflexivity.
Qed.

Lemma cellOf_inj (g : GridSize) (p p' : Z) :
  1 <= cols g -> 0 <= p -> cellOf g p' = cellOf g p -> p' = p.
Proof.
  intros Hc Hp. unfold cellOf. intros [= Hrow Hcol].
  pose proof (Z.div_pos p (cols g) Hp ltac:(lia)) as Hr.
  rewrite <- Hrow in Hr.
  pose proof (nonneg_of_row p' (cols g) ltac:(lia) Hr) as Hp'.
  rewrite !Z.rem_mod_nonneg in Hcol by lia.
  rewrite (Z.div_mod p (cols g)), (Z.div_mod p' (cols g)) by lia.
  congruence.
Qed.

(** The cell that holds a pixel of the bitmap. *)
Lemma positionAt_cell (g : GridSize) (cd : CellDimensions) (X Y : Z) :
  1 <= cols g -> 0 < width cd -> 0 < height cd ->
  0 <= X < 2 * (cols g * width cd) -> 0 <= Y < 2 * (rows g * height cd) ->
  inGrid g (positionAt g cd X Y) /\ inCell g cd (positionAt g cd X Y) X Y.
Proof.
  intros Hc Hw Hh HX HY. unfold positionAt.
  set (c := X / (2 * width cd)). set (r := Y / (2 * height cd)).
  pose proof (Z.div_mod X (2 * width cd) ltac:(lia)) as EX. fold c in EX.
  pose proof (Z.mod_pos_bound X (2 * width cd) ltac:(lia)) as BX.
  pose proof (Z.div_mod Y (2 * height cd) ltac:(lia)) as EY. fold r in EY.
  pose proof (Z.mod_pos_bound Y (2 * height cd) ltac:(lia)) as BY.
  assert (0 <= c < cols g) as Bc by nia.
  assert (0 <= r < rows g) as Br by nia.
  assert ((r * cols g + c) / cols g = r) as Er.
  { rewrite Z.div_add_l by lia. rewrite (Z.div_small c) by lia. lia. }
  assert ((r * cols g + c) mod cols g = c) as Ec.
  { rewrite Z.add_comm, Z.mod_add by lia. apply Z.mod_small. lia. }
  unfold inGrid, inCell. rewrite Er, Ec. split; [lia|].
  apply inRect_true. lia.
Qed.

Lemma inCell_positionAt (g : GridSize) (cd : CellDimensions) (p X Y : Z) :
  1 <= cols g -> 0 < width cd -> 0 < height cd ->
  inCell g cd p X Y -> positionAt g cd X Y = p.
Proof.
  intros Hc Hw Hh H. unfold inCell in H. apply inRect_true in H as [HX HY].
  unfold positionAt.
  assert (X / (2 * width cd) = p mod cols g) as ->.
  { symmetry. apply (Z.div_unique X (2 * width cd) _ (X - 2 * (p mod cols g * width cd))); lia. }
  assert (Y / (2 * height cd) = p / cols g) as ->.
  { symmetry. apply (Z.div_unique Y (2 * height cd) _ (Y - 2 * (p / cols g * height cd))); lia. }
  pose proof (Z.div_mod p (cols g) ltac:(lia)). lia.
Qed.

Lemma entry_pixel (g : GridSize) (cd : CellDimensions) (e : ImageData)
    (B : list layer) (X Y : Z) :
  1 <= cols g -> 0 < width cd -> 0 < height cd ->
  0 <= X < 2 * (cols g * width cd) -> 0 <= Y < 2 * (rows g * height cd) ->
  pixelOf (entryLayers g (width cd) (height cd) 2 2 e ++ B) X Y
    = if position e =? positionAt g cd X Y
      then cellPixel g cd (image e) (position e) (pixelOf B X Y)
      else pixelOf B X Y.
Proof.
  intros Hc Hw Hh HX HY.
  destruct (positionAt_cell g cd X Y Hc Hw Hh HX HY) as [Hin Hcell].
  destruct (Z.eqb_spec (position e) (positionAt g cd X Y)) as [E|E].
  - rewrite <- E in Hin, Hcell.
    rewrite (entryLayers_inGrid g _ _ 2 2 e Hc Hin). cbn [app pixelOf covers].
    unfold inCell in Hcell. rewrite Hcell. reflexivity.
  - apply pixelOf_app_uncovered.
    apply (entryLayers_other_cell g cd (card (positionAt g cd X Y) "") e X Y);
      try assumption.
    intros Hcells. apply E.
    apply (cellOf_inj g _ _ Hc); [|exact Hcells].
    apply (inGrid_nonneg g _ Hc Hin).
Qed.

Lemma imageLayers_pixel (g : GridSize) (cd : CellDimensions) (l : list ImageData)
    (X Y : Z) :
  1 <= cols g -> 0 < width cd -> 0 < height cd ->
  0 <= X < 2 * (cols g * width cd) -> 0 <= Y < 2 * (rows g * height cd) ->
  forall B,
    pixelOf (imageLayers g (width cd) (height cd) 2 2 l ++ B) X Y
      = imagesOver g cd (positionAt g cd X Y) l (pixelOf B X Y).
Proof.
  intros Hc Hw Hh HX HY.
  induction l as [|e l IH]; intros B; [reflexivity|].
  cbn [imageLayers imagesOver]. rewrite <- app_assoc, IH.
  rewrite entry_pixel by assumption.
  destruct (Z.eqb_spec (position e) (positionAt g cd X Y)) as [->|_]; reflexivity.
Qed.

(** The topmost image of a cell is the one of the last entry at its
    position. *)
Lemma imagesOver_top (g : GridSize) (cd : CellDimensions) (p : Z)
    (l : list ImageData) :
  forall base,
    match lastAt p l with
    | Some e => exists b, imagesOver g cd p l base = cellPixel g cd (image e) p b
    | None => imagesOver g cd p l base = base
    end.
Proof.
  induction l as [|x l IH]; intros base; [reflexivity|].
  cbn [imagesOver lastAt].
  specialize (IH (if position x =? p then cellPixel g cd (image x) p base else base)).
  destruct (lastAt p l) as [e|]; [exact IH|].
  rewrite IH. destruct (position x =? p); [eexists|]; reflexivity.
Qed.

(** With one entry at most per position, a cell holds one image at most. *)
Lemma imagesOver_lastAt (g : GridSize) (cd : CellDimensions) (p : Z)
    (l : list ImageData) :
  NoDup (position <$> l) ->
  forall base,
    imagesOver g cd p l base
      = match lastAt p l with
        | Some e => cellPixel g cd (image e) p base
        | None => base
        end.
Proof.
  induction l as [|x l IH]; intros ND base; [reflexivity|].
  rewrite fmap_cons in ND. apply NoDup_cons in ND as [Hx ND].
  cbn [imagesOver lastAt]. rewrite (IH ND).
  destruct (Z.eqb_spec (position x) p) as [E|E].
  - assert (lastAt p l = None) as ->; [|reflexivity].
    apply lastAt_None. intros e He Hp. apply Hx.
    rewrite E, <- Hp. apply list_elem_of_fmap_2, He.
  - destruct (lastAt p l); reflexivity.
Qed.

Lemma inBitmap_render (imgs : list ImageData) (g : GridSize) (cd : CellDimensions)
    (canvas : HTMLCanvasElement) (X Y : Z) :
  inBitmap (render imgs g cd canvas) X Y
  <-> 0 <= X < 2 * (cols g * width cd) /\ 0 <= Y < 2 * (rows g * height cd).
Proof.
  destruct (render_setup imgs g cd canvas) as (EW & EH & _).
  unfold inBitmap. rewrite EW, EH. simpl. lia.
Qed.

Lemma getPixel_render (imgs : list ImageData) (g : GridSize) (cd : CellDimensions)
    (canvas : HTMLCanvasElement) (X Y : Z) :
  1 <= cols g -> 0 < width cd -> 0 < height cd ->
  inBitmap (render imgs g cd canvas) X Y ->
  getPixel (render imgs g cd canvas) X Y
    = imagesOver g cd (positionAt g cd X Y) imgs
        (getPixel (render [] g cd canvas) X Y).
Proof.
  intros Hc Hw Hh HB. apply inBitmap_render in HB as [HX HY].
  rewrite (render_layers imgs). unfold getPixel at 1, paint. cbn [bitmap].
  rewrite imageLayers_pixel by assumption. reflexivity.
Qed.

(** X9: what every pixel of the composite holds.  The pixel [(X, Y)] of
    the bitmap belongs to the cell of position
    [Y / (2 * height) * cols + X / (2 * width)]; on it the images of the
    entries that have this position, each stretched to the cell, are
    composited in list order, the last one on top, over what the canvas
    shows with no image at all (grid line or nothing); entries at other
    positions do not touch it. *)
Theorem render_pixel (imgs : list ImageData) (g : GridSize) (cd : CellDimensions)
    (canvas : HTMLCanvasElement) (X Y : Z) :
  1 <= rows g -> 1 <= cols g -> 0 < width cd -> 0 < height cd ->
  inBitmap (render imgs g cd canvas) X Y ->
  getPixel (render imgs g cd canvas) X Y
    = imagesOver g cd (positionAt g cd X Y) imgs
        (getPixel (render [] g cd canvas) X Y).
Proof.
  intros Hr Hc Hw Hh HB. apply getPixel_render; assumption.
Qed.

Lemma render_pixel_two_cards :
  (1 <= 7 /\ 1 <= 10 /\ 0 < 300 /\ 0 < 420)
  /\ getPixel (render [card 11 "a"; card 3 "b"; card 11 "c"]
                      {| rows := 7; cols := 10 |} {| width := 300; height := 420 |}
                      newCanvas) 700 900
       = ImageOver {| img_src := "c" |} 600 840 600 840
           (ImageOver {| img_src := "a" |} 600 840 600 840 Transparent).
Proof.
  split; [lia|].
  refine (render_pixel [card 11 "a"; card 3 "b"; card 11 "c"]
            {| rows := 7; cols := 10 |} {| width := 300; height := 420 |}
            newCanvas 700 900 _ _ _ _ _); try (simpl; lia).
  apply inBitmap_render. simpl. lia.
Defined.

Lemma render_sizes_equal (imgs imgs' : list ImageData) (g : GridSize)
    (cd : CellDimensions) (canvas : HTMLCanvasElement) :
  canvas_width (render imgs' g cd canvas) = canvas_width (render imgs g cd canvas)
  /\ canvas_height (render imgs' g cd canvas) = canvas_height (render imgs g cd canvas)
  /\ style_width (render imgs' g cd canvas) = style_width (render imgs g cd canvas)
  /\ style_height (render imgs' g cd canvas) = style_height (render imgs g cd canvas).
Proof.
  destruct (render_setup imgs g cd canvas) as (W1 & H1 & SW1 & SH1 & _).
  destruct (render_setup imgs' g cd canvas) as (W2 & H2 & SW2 & SH2 & _).
  rewrite W1, H1, SW1, SH1, W2, H2, SW2, SH2. repeat split.
Qed.

(** X10: a pixel of the composite has an image drawn on it exactly when
    some entry has the position of the pixel's cell; so when every position
    from 0 to [rows * cols - 1] is taken, every pixel of the bitmap has the
    image of such an entry on top, and where that image is opaque no grid
    line and no empty pixel shows. *)
Theorem image_pixels_are_occupied_cells (imgs : list ImageData) (g : GridSize)
    (cd : CellDimensions) (canvas : HTMLCanvasElement) (X Y : Z) :
  1 <= rows g -> 1 <= cols g -> 0 < width cd -> 0 < height cd ->
  inBitmap (render imgs g cd canvas) X Y ->
  ((exists img x y w h b,
       getPixel (render imgs g cd canvas) X Y = ImageOver img x y w h b)
   <-> exists e, e ∈ imgs /\ position e = positionAt g cd X Y)
  /\ ((forall p, 0 <= p < rows g * cols g -> exists e, e ∈ imgs /\ position e = p) ->
      exists e b,
        e ∈ imgs /\ position e = positionAt g cd X Y
        /\ getPixel (render imgs g cd canvas) X Y
             = cellPixel g cd (image e) (positionAt g cd X Y) b
        /\ (forall M : Compositing,
              opaque M (sample M (image e)
                          (2 * (position e mod cols g * width cd))
                          (2 * (position e / cols g * height cd))
                          (2 * width cd) (2 * height cd) X Y) ->
              colourOf M (getPixel (render imgs g cd canvas) X Y) X Y
                = sample M (image e)
                    (2 * (position e mod cols g * width cd))
                    (2 * (position e / cols g * height cd))
                    (2 * width cd) (2 * height cd) X Y)).
Proof.
  intros Hr Hc Hw Hh HB.
  pose proof (getPixel_render imgs g cd canvas X Y Hc Hw Hh HB) as P.
  pose proof (imagesOver_top g cd (positionAt g cd X Y) imgs
                (getPixel (render [] g cd canvas) X Y)) as T.
  rewrite <- P in T.
  assert (Occ : (exists e, e ∈ imgs /\ position e = positionAt g cd X Y) ->
                exists e b,
                  e ∈ imgs /\ position e = positionAt g cd X Y
                  /\ getPixel (render imgs g cd canvas) X Y
                       = cellPixel g cd (image e) (positionAt g cd X Y) b).
  { intros (e & He & Hp).
    destruct (lastAt (positionAt g cd X Y) imgs) as [e'|] eqn:E.
    - destruct (lastAt_Some _ _ _ E) as [He' Hp']. destruct T as [b T].
      exists e', b. repeat split; assumption.
    - exfalso. apply (proj1 (lastAt_None _ _) E e He Hp). }
  split; [split|].
  - intros (img & x & y & w & h & b & Hpix).
    destruct (lastAt (positionAt g cd X Y) imgs) as [e'|] eqn:E.
    + destruct (lastAt_Some _ _ _ E) as [He' Hp']. exists e'. split; assumption.
    + exfalso. rewrite T in Hpix. revert Hpix.
      apply pixelOf_notDrawn. apply ruled_setup.
  - intros H. destruct (Occ H) as (e & b & _ & _ & Hpix).
    rewrite Hpix. unfold cellPixel. eauto 10.
  - intros Full.
    destruct Occ as (e & b & He & Hp & Hpix).
    { apply Full.
      apply inBitmap_render in HB as [HX HY].
      apply (inGrid_range g _ Hr Hc).
      apply (positionAt_cell g cd X Y Hc Hw Hh HX HY). }
    exists e, b. split; [exact He|]. split; [exact Hp|]. split; [exact Hpix|].
    intros M Hop. rewrite Hpix. unfold cellPixel. cbn [colourOf].
    rewrite <- Hp. apply over_opaque, Hop.
Qed.

Lemma image_pixels_are_occupied_cells_one_cell :
  exists e b, e ∈ [card 0 "a"]
            /\ position e = 0
            /\ getPixel (render [card 0 "a"] {| rows := 1; cols := 1 |}
                                {| width := 300; height := 420 |} newCanvas) 0 0
                 = ImageOver (image e) 0 0 600 840 b
            /\ (forall M : Compositing,
                  opaque M (sample M (image e)
                              (2 * (position e mod 1 * 300))
                              (2 * (position e / 1 * 420)) 600 840 0 0) ->
                  colourOf M
                    (getPixel (render [card 0 "a"] {| rows := 1; cols := 1 |}
                                      {| width := 300; height := 420 |} newCanvas) 0 0)
                    0 0
                    = sample M (image e)
                        (2 * (position e mod 1 * 300))
                        (2 * (position e / 1 * 420)) 600 840 0 0).
Proof.
  refine (proj2 (image_pixels_are_occupied_cells [card 0 "a"]
                   {| rows := 1; cols := 1 |} {| width := 300; height := 420 |}
                   newCanvas 0 0 _ _ _ _ _) _); try (simpl; lia).
  - apply inBitmap_render. simpl. lia.
  - simpl. intros p Hp. exists (card 0 "a"). split; [constructor | simpl; lia].
Defined.

(** X11: when no two entries have the same position, the order of the list
    does not matter: any permutation of the list renders to the same
    buffer. *)
Theorem render_permutation (imgs imgs' : list ImageData) (g : GridSize)
    (cd : CellDimensions) (canvas : HTMLCanvasElement) :
  1 <= rows g -> 1 <= cols g -> 0 < width cd -> 0 < height cd ->
  imgs ≡ₚ imgs' -> NoDup (position <$> imgs) ->
  sameBuffer (render imgs g cd canvas) (render imgs' g cd canvas).
Proof.
  intros Hr Hc Hw Hh Hperm ND.
  assert (ND' : NoDup (position <$> imgs')) by (rewrite <- Hperm; exact ND).
  destruct (render_sizes_equal imgs imgs' g cd canvas) as (W & H & SW & SH).
  unfold sameBuffer. repeat split; try assumption.
  intros X Y HB.
  assert (HB' : inBitmap (render imgs' g cd canvas) X Y).
  { apply inBitmap_render. apply inBitmap_render in HB. exact HB. }
  rewrite (getPixel_render imgs'), (getPixel_render imgs) by assumption.
  rewrite (imagesOver_lastAt g cd _ imgs' ND'), (imagesOver_lastAt g cd _ imgs ND).
  destruct (lastAt (positionAt g cd X Y) imgs) as [e|] eqn:E.
  - destruct (lastAt_Some _ _ _ E) as [He Hp].
    rewrite <- Hp, (lastAt_unique imgs' e ND') by (rewrite <- Hperm; exact He).
    reflexivity.
  - assert (lastAt (positionAt g cd X Y) imgs' = None) as ->; [|reflexivity].
    apply lastAt_None. intros e He. rewrite <- Hperm in He.
    apply (proj1 (lastAt_None _ _) E e He).
Qed.

Lemma render_permutation_swap :
  sameBuffer (render [card 0 "a"; card 1 "b"] {| rows := 7; cols := 10 |}
                     {| width := 300; height := 420 |} newCanvas)
             (render [card 1 "b"; card 0 "a"] {| rows := 7; cols := 10 |}
                     {| width := 300; height := 420 |} newCanvas).
Proof.
  refine (render_permutation [card 0 "a"; card 1 "b"] [card 1 "b"; card 0 "a"]
            {| rows := 7; cols := 10 |} {| width := 300; height := 420 |}
            newCanvas _ _ _ _ _ _); try (simpl; lia).
  - apply Permutation_swap.
  - simpl. apply NoDup_cons. split; [|apply NoDup_singleton].
    intros H. apply list_elem_of_singleton in H. discriminate.
Defined.

(** X12: after auto-arrange, if the list has at most [rows * cols] entries,
    every entry is shown: on the cell of position [i] the image of the
    entry at list index [i] is drawn, and no other image; beneath it is what
    the canvas shows with no image at all. *)
Theorem autoArrange_shows_every_entry (l : list ImageData) (g : GridSize)
    (cd : CellDimensions) (canvas : HTMLCanvasElement)
    (i : nat) (e : ImageData) (X Y : Z) :
  1 <= rows g -> 1 <= cols g -> 0 < width cd -> 0 < height cd ->
  Z.of_nat (length l) <= rows g * cols g ->
  l !! i = Some e ->
  inCell g cd (Z.of_nat i) X Y ->
  inBitmap (render (autoArrange l) g cd canvas) X Y
  /\ getPixel (render (autoArrange l) g cd canvas) X Y
       = cellPixel g cd (image e) (Z.of_nat i)
           (getPixel (render [] g cd canvas) X Y).
Proof.
  intros Hr Hc Hw Hh Hfit Hi HXY.
  assert (Hin : inGrid g (Z.of_nat i)).
  { apply (inGrid_range g _ Hr Hc). apply lookup_lt_Some in Hi. lia. }
  assert (HB : inBitmap (render (autoArrange l) g cd canvas) X Y)
    by (eapply inCell_inBitmap; eauto).
  split; [exact HB|].
  rewrite getPixel_render by assumption.
  rewrite (inCell_positionAt g cd _ X Y Hc Hw Hh HXY).
  assert (He : autoArrange l !! i = Some (setPosition e (Z.of_nat i))).
  { unfold autoArrange. rewrite list_lookup_imap, Hi. reflexivity. }
  assert (ND : NoDup (position <$> autoArrange l)).
  { rewrite (autoArrange_sequential l).
    apply NoDup_fmap_2; [apply Nat2Z.inj' | apply NoDup_seq]. }
  rewrite (imagesOver_lastAt g cd _ _ ND).
  pose proof (lastAt_unique _ _ ND (list_elem_of_lookup_2 _ _ _ He)) as L.
  cbn [position setPosition] in L. rewrite L. reflexivity.
Qed.

Lemma autoArrange_shows_every_entry_second_card :
  getPixel (render (autoArrange [card 40 "a"; card 40 "b"])
                   {| rows := 7; cols := 10 |} {| width := 300; height := 420 |}
                   newCanvas) 700 10
    = ImageOver {| img_src := "b" |} 600 0 600 840 Transparent.
Proof.
  refine (proj2 (autoArrange_shows_every_entry [card 40 "a"; card 40 "b"]
                   {| rows := 7; cols := 10 |} {| width := 300; height := 420 |}
                   newCanvas 1%nat (card 40 "b") 700 10 _ _ _ _ _ _ _));
    try (simpl; lia); reflexivity.
Defined.

(** ** Grid changes *)

Lemma parseInt_pretty (n : Z) : parseInt (pretty n) = Num n.
Proof. rewrite <- (append_empty_r (pretty n)). apply parseInt_numeral. reflexivity. Qed.

Lemma run_app (st : AppState) (l k : list action) :
  run st (l ++ k) = run (run st l) k.
Proof. unfold run. apply fold_left_app. Qed.

Lemma run_gridChange_frame (l : list action) :
  Forall isGridChange l ->
  forall st, images (run st l) = images st /\ customWidth (run st l) = customWidth st.
Proof.
  induction 1 as [|a l Ha _ IH]; intros st; [split; reflexivity|].
  simpl. destruct (IH (step st a)) as [-> ->].
  destruct a; simpl in Ha; try contradiction; split; reflexivity.
Qed.

(** X13: changing the grid never touches the image list or the cell
    width, and typing the displayed rows and columns back after any series
    of grid changes restores the state exactly, in every state whose rows
    and columns are safe integers other than 0 (the fields then display
    their decimal numerals); so entries hidden by a smaller grid are part of
    the same state again. *)
Theorem grid_change_restore (st : AppState) (l : list action) (r c : string) :
  rowsFieldValue (gridSize st) = Some r ->
  colsFieldValue (gridSize st) = Some c ->
  rows (gridSize st) <> 0 -> cols (gridSize st) <> 0 ->
  Forall isGridChange l ->
  images (run st l) = images st
  /\ customWidth (run st l) = customWidth st
  /\ run st (l ++ [GridRowsChange r; GridColsChange c]) = st.
Proof.
  intros Er Ec Nr Nc Hl.
  destruct (run_gridChange_frame l Hl st) as [Ei Ew].
  split; [exact Ei|]. split; [exact Ew|].
  unfold rowsFieldValue, colsFieldValue, numberToString in Er, Ec.
  destruct (isSafeInteger (rows (gridSize st))); [|discriminate].
  destruct (isSafeInteger (cols (gridSize st))); [|discriminate].
  injection Er as <-. injection Ec as <-.
  rewrite run_app. simpl. unfold setGridSize, handleGridRowsChange,
    handleGridColsChange. simpl.
  rewrite Ei, Ew, !parseInt_pretty. simpl.
  apply Z.eqb_neq in Nr, Nc. rewrite Nr, Nc.
  destruct st as [im [r c] w]. reflexivity.
Qed.

Lemma grid_change_restore_shrink :
  (rowsFieldValue (gridSize (run initialState
       [ImageLoaded 1000 0 (png "a"); PositionChange 1000 "68"])) = Some "7"
   /\ colsFieldValue (gridSize (run initialState
       [ImageLoaded 1000 0 (png "a"); PositionChange 1000 "68"])) = Some "10"
   /\ Forall isGridChange [GridRowsChange "5"; GridColsChange "5"])
  /\ run (run initialState [ImageLoaded 1000 0 (png "a"); PositionChange 1000 "68"])
         [GridRowsChange "5"; GridColsChange "5"; GridRowsChange "7"; GridColsChange "10"]
       = run initialState [ImageLoaded 1000 0 (png "a"); PositionChange 1000 "68"].
Proof.
  assert (H : Forall isGridChange [GridRowsChange "5"; GridColsChange "5"])
    by (repeat constructor).
  split; [repeat split; (reflexivity || exact H)|].
  refine (proj2 (proj2
           (grid_change_restore
              (run initialState [ImageLoaded 1000 0 (png "a"); PositionChange 1000 "68"])
              [GridRowsChange "5"; GridColsChange "5"] "7" "10" _ _ _ _ H)));
    (reflexivity || discriminate).
Defined.

(** ** The derived height, in integers *)

Lemma exact_height_formula (w : Z) : exact_height w = (14 * w + 5) / 10.
Proof. transitivity ((w * 7 * 2 + 5) / 10); [reflexivity | f_equal; lia]. Qed.

(** X14: for every width the slider offers, the derived height is
    [(14 * w + 5) / 10] in integer arithmetic; it deviates from the exact
    ratio 7/5 by at most 2/5 of a pixel, lies between 280 and 840, and grows
    with the width. *)
Theorem customHeight_closed_form (w : Z) :
  200 <= w <= 600 ->
  customHeight w = (14 * w + 5) / 10
  /\ -2 <= 5 * customHeight w - 7 * w <= 2
  /\ 280 <= customHeight w <= 840
  /\ (forall w', w <= w' <= 600 -> customHeight w <= customHeight w').
Proof.
  intros Hw.
  assert (F : forall v, 200 <= v <= 600 -> customHeight v = (14 * v + 5) / 10).
  { intros v Hv. pose proof (heightAgrees_range v Hv) as H.
    unfold heightAgrees in H. apply andb_prop in H as [_ H].
    apply Z.eqb_eq in H. rewrite H. apply exact_height_formula. }
  rewrite (F w Hw).
  pose proof (Z.div_mod (14 * w + 5) 10 ltac:(lia)) as E.
  pose proof (Z.mod_pos_bound (14 * w + 5) 10 ltac:(lia)) as B.
  split; [reflexivity|]. split; [lia|]. split; [lia|].
  intros w' Hw'. rewrite (F w') by lia.
  apply Z.div_le_mono; lia.
Qed.

Lemma customHeight_closed_form_205 :
  200 <= 205 <= 600 /\ customHeight 205 = 287.
Proof.
  split; [lia|].
  exact (proj1 (customHeight_closed_form 205 ltac:(lia))).
Defined.

(** ** The grid lines *)

Lemma strokeLine_ctxRuling (x0 y0 x1 y1 : Z) (canvas : HTMLCanvasElement) :
  ctxRuling canvas -> ctxRuling (strokeLine x0 y0 x1 y1 canvas).
Proof. intros H. exact H. Qed.

Lemma strokeLine_vertical (x y1 : Z) (canvas : HTMLCanvasElement) (X Y : Z) :
  ctxRuling canvas -> 0 <= Y < 2 * y1 ->
  pixelOf (bitmap (strokeLine x 0 x y1 canvas)) X Y
    = if (2 * x - 2 <=? X) && (X <? 2 * x + 2)
      then StrokePixel "#ccc"
      else pixelOf (bitmap canvas) X Y.
Proof.
  intros (Sx & Sy & Lw & St) HY.
  unfold strokeLine, stroke, lineTo, moveTo, beginPath, with_context, paint, strokeSegment.
  cbn [context bitmap scaleX scaleY strokeStyle lineWidth pen path app fmap list_fmap concat].
  rewrite Sx, Sy, Lw, St. rewrite Z.eqb_refl.
  cbn [concat app rev pixelOf covers].
  destruct (inRect _ _ _ _ X Y) eqn:E.
  - apply inRect_true in E.
    assert ((2 * x - 2 <=? X) && (X <? 2 * x + 2) = true) as ->; [|reflexivity].
    rewrite andb_true_iff, Z.leb_le, Z.ltb_lt.
    change (2 * 2 / 2) with 2 in E. lia.
  - apply inRect_false in E.
    assert ((2 * x - 2 <=? X) && (X <? 2 * x + 2) = false) as ->; [|reflexivity].
    apply andb_false_iff. rewrite Z.leb_gt, Z.ltb_ge.
    change (2 * 2 / 2) with 2 in E. lia.
Qed.

Lemma strokeLine_horizontal (y x1 : Z) (canvas : HTMLCanvasElement) (X Y : Z) :
  ctxRuling canvas -> 0 < x1 -> 0 <= X < 2 * x1 ->
  pixelOf (bitmap (strokeLine 0 y x1 y canvas)) X Y
    = if (2 * y - 2 <=? Y) && (Y <? 2 * y + 2)
      then StrokePixel "#ccc"
      else pixelOf (bitmap canvas) X Y.
Proof.
  intros (Sx & Sy & Lw & St) Hx HX.
  unfold strokeLine, stroke, lineTo, moveTo, beginPath, with_context, paint, strokeSegment.
  cbn [context bitmap scaleX scaleY strokeStyle lineWidth pen path app fmap list_fmap concat].
  rewrite Sx, Sy, Lw, St.
  destruct (Z.eqb_spec (2 * 0) (2 * x1)) as [E0|_]; [lia|].
  rewrite Z.eqb_refl.
  cbn [concat app rev pixelOf covers].
  destruct (inRect _ _ _ _ X Y) eqn:E.
  - apply inRect_true in E.
    assert ((2 * y - 2 <=? Y) && (Y <? 2 * y + 2) = true) as ->; [|reflexivity].
    rewrite andb_true_iff, Z.leb_le, Z.ltb_lt.
    change (2 * 2 / 2) with 2 in E. lia.
  - apply inRect_false in E.
    assert ((2 * y - 2 <=? Y) && (Y <? 2 * y + 2) = false) as ->; [|reflexivity].
    apply andb_false_iff. rewrite Z.leb_gt, Z.ltb_ge.
    change (2 * 2 / 2) with 2 in E. lia.
Qed.

Lemma fold_strokeLine_pixel (f : Z -> Z * Z * Z * Z) (cov : Z -> bool) (X Y : Z) :
  (forall c i, ctxRuling c ->
     pixelOf (bitmap (let '(x0, y0, x1, y1) := f i in strokeLine x0 y0 x1 y1 c)) X Y
       = if cov i then StrokePixel "#ccc" else pixelOf (bitmap c) X Y) ->
  forall l c, ctxRuling c ->
    ctxRuling (fold_left (fun c i => let '(x0, y0, x1, y1) := f i in
                                     strokeLine x0 y0 x1 y1 c) l c)
    /\ pixelOf (bitmap (fold_left (fun c i => let '(x0, y0, x1, y1) := f i in
                                              strokeLine x0 y0 x1 y1 c) l c)) X Y
         = if existsb cov l then StrokePixel "#ccc" else pixelOf (bitmap c) X Y.
Proof.
  intros Hstep l. induction l as [|i l IH]; intros c Hc; [split; [exact Hc | reflexivity]|].
  cbn [fold_left existsb].
  assert (Hc' : ctxRuling (let '(x0, y0, x1, y1) := f i in strokeLine x0 y0 x1 y1 c)).
  { destruct (f i) as [[[x0 y0] x1] y1]. apply strokeLine_ctxRuling, Hc. }
  destruct (IH _ Hc') as [IH1 IH2]. split; [exact IH1|].
  rewrite IH2, (Hstep c i Hc).
  destruct (cov i), (existsb cov l); reflexivity.
Qed.

(** Some line of the lines at [0, s, 2s, ..., n * s] (in device pixels,
    four pixels wide) covers the coordinate [X]. *)
Lemma line_covers (s n X : Z) :
  0 < s -> 0 <= n -> 0 <= X < 2 * (n * s) ->
  existsb (fun i => (2 * (i * s) - 2 <=? X) && (X <? 2 * (i * s) + 2)) (seqZ 0 (n + 1))
    = ((X + 2) mod (2 * s) <? 4).
Proof.
  intros Hs Hn HX.
  pose proof (Z.div_mod (X + 2) (2 * s) ltac:(lia)) as E.
  pose proof (Z.mod_pos_bound (X + 2) (2 * s) ltac:(lia)) as B.
  destruct (Z.ltb_spec ((X + 2) mod (2 * s)) 4) as [H|H].
  - apply existsb_exists. exists ((X + 2) / (2 * s)). split.
    + apply list_elem_of_In, elem_of_seqZ. split; [nia|]. nia.
    + rewrite andb_true_iff, Z.leb_le, Z.ltb_lt. nia.
  - apply not_true_iff_false. intros Hex.
    apply existsb_exists in Hex as (i & _ & Hi).
    rewrite andb_true_iff, Z.leb_le, Z.ltb_lt in Hi.
    assert (i = (X + 2) / (2 * s)) as ->.
    { apply (Z.div_unique (X + 2) (2 * s) i (X + 2 - 2 * (i * s))); nia. }
    nia.
Qed.

(** X15: the grid lines.  With no image on a cell, a pixel of the bitmap
    shows the line colour [#ccc] exactly when it lies within two device
    pixels of a cell boundary (the lines are 4 device pixels wide, centred
    on the boundaries, the outermost ones cut in half by the edge of the
    bitmap); every other pixel is left transparent. *)
Theorem grid_lines (g : GridSize) (cd : CellDimensions)
    (canvas : HTMLCanvasElement) (X Y : Z) :
  1 <= rows g -> 1 <= cols g -> 0 < width cd -> 0 < height cd ->
  inBitmap (render [] g cd canvas) X Y ->
  getPixel (render [] g cd canvas) X Y
    = if onGridLine cd X Y then StrokePixel "#ccc" else Transparent.
Proof.
  intros Hr Hc Hw Hh HB. apply inBitmap_render in HB as [HX HY].
  unfold getPixel. change (render [] g cd canvas) with (ruled g cd canvas).
  rewrite ruled_unfold.
  set (c0 := cleared g cd (contextType canvas)).
  assert (C0 : ctxRuling c0) by (repeat split).
  destruct (fold_strokeLine_pixel
              (fun i => (i * width cd, 0, i * width cd, rows g * height cd))
              (fun i => (2 * (i * width cd) - 2 <=? X) && (X <? 2 * (i * width cd) + 2))
              X Y
              (fun c i Hc0 => strokeLine_vertical (i * width cd) (rows g * height cd)
                                c X Y Hc0 HY)
              (seqZ 0 (cols g + 1)) c0 C0) as [C1 P1].
  set (c1 := fold_left _ (seqZ 0 (cols g + 1)) c0) in *.
  destruct (fold_strokeLine_pixel
              (fun i => (0, i * height cd, cols g * width cd, i * height cd))
              (fun i => (2 * (i * height cd) - 2 <=? Y) && (Y <? 2 * (i * height cd) + 2))
              X Y
              (fun c i Hc0 => strokeLine_horizontal (i * height cd) (cols g * width cd)
                                c X Y Hc0 ltac:(nia) HX)
              (seqZ 0 (rows g + 1)) c1 C1) as [_ P2].
  rewrite P2, P1.
  rewrite (line_covers (height cd) (rows g) Y) by lia.
  rewrite (line_covers (width cd) (cols g) X) by lia.
  unfold onGridLine.
  assert (pixelOf (bitmap c0) X Y = Transparent) as ->.
  { subst c0. simpl. destruct (inRect _ _ _ _ X Y); reflexivity. }
  destruct ((X + 2) mod (2 * width cd) <? 4), ((Y + 2) mod (2 * height cd) <? 4);
    reflexivity.
Qed.

Lemma grid_lines_initial :
  (1 <= 7 /\ 1 <= 10 /\ 0 < 300 /\ 0 < 420)
  /\ getPixel (render [] {| rows := 7; cols := 10 |}
                      {| width := 300; height := 420 |} newCanvas) 601 300
       = StrokePixel "#ccc".
Proof.
  split; [lia|].
  refine (grid_lines {| rows := 7; cols := 10 |} {| width := 300; height := 420 |}
            newCanvas 601 300 _ _ _ _ _); try (simpl; lia).
  apply inBitmap_render. simpl. lia.
Defined.

(** ** Upload followed by removal *)

(** X16: removing the id that an upload has just generated undoes the
    upload when that id was not in the list before; in general it gives the
    list from before the upload with the entries of that id removed, so an
    older entry with a colliding id is removed together with the new one. *)
Theorem upload_then_remove (now index : Z) (file : File) (prev : list ImageData) :
  startsWith (file_type file) "image/" = true ->
  removeImage (now + index) (handleImageUpload now index file prev)
    = removeImage (now + index) prev
  /\ ((now + index) ∉ (id <$> prev) ->
      removeImage (now + index) (handleImageUpload now index file prev) = prev).
Proof.
  intros Hf.
  assert (E : removeImage (now + index) (handleImageUpload now index file prev)
              = removeImage (now + index) prev).
  { unfold handleImageUpload. rewrite Hf. unfold appendImage, removeImage.
    rewrite filter_app, filter_cons. cbn [id].
    destruct (decide (now + index <> now + index)); [contradiction|].
    rewrite filter_nil. apply app_nil_r. }
  split; [exact E|].
  intros Hfresh. rewrite E. unfold removeImage.
  apply filter_all. apply Forall_forall. intros e He Hid.
  apply Hfresh. rewrite <- Hid. apply list_elem_of_fmap_2, He.
Qed.

Lemma upload_then_remove_collision :
  startsWith (file_type (png "a")) "image/" = true
  /\ removeImage 1001 (handleImageUpload 1001 0 (png "a")
                         (handleImageUpload 1000 1 (png "b") []))
       = [].
Proof.
  split; [reflexivity|].
  exact (proj1 (upload_then_remove 1001 0 (png "a")
                  (handleImageUpload 1000 1 (png "b") []) eq_refl)).
Defined.
